(** * Leader tracking and fan-out of the TPU client (rpc/tpu/tpu_client.go)

    A shallow embedding of the slot estimator, the leader schedule cache and
    the fan-out sender, followed by the properties the design document of
    the package states about them.

    Conventions.
    - A Go [uint64] is a [Z] in [0, 2^64); every addition that the source
      performs on [uint64] is wrapped with [u64].
    - The source keeps slot samples as [float64], but only ever stores the
      conversion of a [uint64] there.  Such a value is a non-negative
      integer, so a sample is modelled by its exact numerical value in [Z];
      the rounding of [float64(u)] is written out in [float64_of_uint64].
    - A map from the string form of a public key to an address is a
      [gmap string string]; a missing key reads as the empty string, as a
      Go map does.
    - Methods with a pointer receiver return the receiver after the call
      next to their result. *)

From Stdlib Require Import ZArith List Lia Sorted Permutation.
From stdpp Require Import base numbers list strings gmap sorting.

Open Scope Z_scope.

(** ** Machine numbers *)

Definition u64 (z : Z) : Z := z mod 2 ^ 64.

(** [float64(u)] for a [uint64] u: exact below 2^53, otherwise rounded to
    53 significant bits, to nearest, ties to even.  The result can be 2^64
    itself. *)
Definition float64_of_uint64 (u : Z) : Z :=
  if u <? 2 ^ 53 then u
  else
    let e := Z.log2 u - 52 in
    let q := Z.shiftr u e in
    let r := Z.land u (Z.ones e) in
    let half := 2 ^ (e - 1) in
    let q' := if (half <? r) || ((r =? half) && Z.odd q) then q + 1 else q in
    Z.shiftl q' e.

(** [uint64(f)] for an integer-valued [float64] f.  In range the conversion
    is exact.  Out of range Go leaves the result to the implementation; the
    model saturates, and every statement below that depends on a conversion
    keeps its argument in range. *)
Definition uint64_of_float64 (f : Z) : Z :=
  if f <? 0 then 0 else if f <? 2 ^ 64 then f else 2 ^ 64 - 1.

(** [math.Min] and [math.Max] on integer-valued floats. *)
Definition math_Min (x y : Z) : Z := Z.min x y.
Definition math_Max (x y : Z) : Z := Z.max x y.

Definition MAX_SLOT_SKIP_DISTANCE : Z := 48.
Definition DEFAULT_FANOUT_SLOTS : Z := 12.
Definition MAX_FANOUT_SLOTS : Z := 100.

(** [sort.Float64s] and [sort.Sort(sort.Reverse(sort.Float64Slice(_)))].
    On numbers the ascending (descending) arrangement of a slice is unique
    ([sort_Float64s_unique], [sort_Reverse_unique] below), so the sorting
    algorithm chosen here cannot be observed. *)
Definition sort_Float64s (s : list Z) : list Z := merge_sort Z.le s.
Definition sort_Reverse_Float64s (s : list Z) : list Z := merge_sort (flip Z.le) s.

(** ** Slot estimator *)

Module RecentLeaderSlots.

Record t := { RecentSlots : list Z }.

Definition empty : t := {| RecentSlots := [] |}.

Definition Load (r : t) (currentSlot : Z) : t :=
  {| RecentSlots := RecentSlots r ++ [float64_of_uint64 currentSlot] |}.

(** [for len(s) > 12 { s = s[1:] }] *)
Fixpoint trim (s : list Z) : list Z :=
  match s with
  | [] => []
  | _ :: s' => if 12 <? Z.of_nat (length s) then trim s' else s
  end.

Definition RecordSlot (r : t) (currentSlot : Z) : t :=
  {| RecentSlots := trim (RecentSlots r ++ [float64_of_uint64 currentSlot]) |}.

(** The [range] loop that picks the slot to return. *)
Fixpoint pick (maxReasonableCurrentSlot : Z) (recentSlots : list Z) (slotToReturn : Z) : Z :=
  match recentSlots with
  | [] => slotToReturn
  | slot :: rest =>
      if (uint64_of_float64 slot <=? maxReasonableCurrentSlot)
         && (slotToReturn <? uint64_of_float64 slot)
      then pick maxReasonableCurrentSlot rest (uint64_of_float64 slot)
      else pick maxReasonableCurrentSlot rest slotToReturn
  end.

(** The local [recentSlots] shares its backing array with the receiver's
    field, so both sorts are visible in the receiver afterwards. *)
Definition EstimatedCurrentSlot (r : t) : Z * t :=
  match RecentSlots r with
  | [] => (0, r)
  | _ :: _ =>
      let recentSlots := sort_Float64s (RecentSlots r) in
      let maxIndex := Z.of_nat (length recentSlots) - 1 in
      let medianIndex := maxIndex ÷ 2 in
      let medianRecentSlot := nth (Z.to_nat medianIndex) recentSlots 0 in
      let expectedCurrentSlot :=
        u64 (uint64_of_float64 medianRecentSlot + u64 (maxIndex - medianIndex)) in
      let maxReasonableCurrentSlot := u64 (expectedCurrentSlot + MAX_SLOT_SKIP_DISTANCE) in
      let recentSlots := sort_Reverse_Float64s recentSlots in
      (pick maxReasonableCurrentSlot recentSlots 0, {| RecentSlots := recentSlots |})
  end.

End RecentLeaderSlots.

(** ** External collaborators *)

Definition error := string.

(** A Go pair [(value, err)]: [Err e] when [err != nil]. *)
Inductive result (A : Type) : Type :=
| Ok (a : A)
| Err (e : error).
Arguments Ok {A} a.
Arguments Err {A} e.

(** A public key is only ever used through its [String()] form, so it is
    modelled by that string. *)
Abbreviation PublicKey := string (only parsing).
Definition PublicKey_String (k : PublicKey) : string := k.

Inductive CommitmentType := CommitmentFinalized | CommitmentConfirmed | CommitmentProcessed.

Record GetEpochInfoResult := { EpochInfo_SlotsInEpoch : Z }.

Record GetClusterNodesResult := { Pubkey : PublicKey; TPU : option string }.

(** The query interface, [*rpc.Client]. *)
Record rpc_Client := {
  GetEpochInfo : CommitmentType -> result GetEpochInfoResult;
  GetSlotLeaders : Z -> Z -> result (list PublicKey);
  GetClusterNodes : result (list GetClusterNodesResult);
  GetSlot : CommitmentType -> result Z
}.

(** Modelled from the spec: [CheckIfDuplicate] is called by the cache but is
    not among the sources.  The design document says leaders are
    deduplicated by identity, so it is membership of the identity in the
    list of leaders already checked. *)
Definition CheckIfDuplicate (alreadyCheckedLeaders : list string) (leader : string) : bool :=
  bool_decide (leader ∈ alreadyCheckedLeaders).

(** ** Leader schedule cache *)

Module LeaderTPUCache.

Record t := {
  LeaderTPUMap : gmap string string;
  Connection : option rpc_Client;
  FirstSlot : Z;
  SlotsInEpoch : Z;
  LastEpochInfoSlot : Z;
  Leaders : list PublicKey
}.

(** [LeaderTPUCache{}] *)
Definition zero : t :=
  {| LeaderTPUMap := ∅; Connection := None; FirstSlot := 0; SlotsInEpoch := 0;
     LastEpochInfoSlot := 0; Leaders := [] |}.

Definition set_Connection (c : t) (v : option rpc_Client) : t :=
  {| LeaderTPUMap := LeaderTPUMap c; Connection := v; FirstSlot := FirstSlot c;
     SlotsInEpoch := SlotsInEpoch c; LastEpochInfoSlot := LastEpochInfoSlot c;
     Leaders := Leaders c |}.
Definition set_SlotsInEpoch (c : t) (v : Z) : t :=
  {| LeaderTPUMap := LeaderTPUMap c; Connection := Connection c; FirstSlot := FirstSlot c;
     SlotsInEpoch := v; LastEpochInfoSlot := LastEpochInfoSlot c;
     Leaders := Leaders c |}.
Definition set_Leaders (c : t) (v : list PublicKey) : t :=
  {| LeaderTPUMap := LeaderTPUMap c; Connection := Connection c; FirstSlot := FirstSlot c;
     SlotsInEpoch := SlotsInEpoch c; LastEpochInfoSlot := LastEpochInfoSlot c;
     Leaders := v |}.
Definition set_LeaderTPUMap (c : t) (v : gmap string string) : t :=
  {| LeaderTPUMap := v; Connection := Connection c; FirstSlot := FirstSlot c;
     SlotsInEpoch := SlotsInEpoch c; LastEpochInfoSlot := LastEpochInfoSlot c;
     Leaders := Leaders c |}.
Definition set_FirstSlot (c : t) (v : Z) : t :=
  {| LeaderTPUMap := LeaderTPUMap c; Connection := Connection c; FirstSlot := v;
     SlotsInEpoch := SlotsInEpoch c; LastEpochInfoSlot := LastEpochInfoSlot c;
     Leaders := Leaders c |}.

(** The number of leaders asked for. *)
Definition fanout_window (slotsInEpoch : Z) : Z :=
  uint64_of_float64
    (math_Min (float64_of_uint64 (u64 (2 * MAX_FANOUT_SLOTS))) (float64_of_uint64 slotsInEpoch)).

(** A method called through a nil [Connection] panics: [None]. *)
Definition FetchSlotLeaders (c : t) (startSlot slotsInEpoch : Z) : option (result (list PublicKey)) :=
  connection ← Connection c;
  let fanout := fanout_window slotsInEpoch in
  match GetSlotLeaders connection startSlot fanout with
  | Err err => Some (Err err)
  | Ok slotLeaders => Some (Ok slotLeaders)
  end.

Definition FetchClusterTPUSockets (c : t) : option (result (gmap string string)) :=
  connection ← Connection c;
  match GetClusterNodes connection with
  | Err err => Some (Err err)
  | Ok clusterNodes =>
      Some (Ok (foldl (fun clusterTPUSockets contactInfo =>
                         match TPU contactInfo with
                         | Some tpu => <[PublicKey_String (Pubkey contactInfo) := tpu]> clusterTPUSockets
                         | None => clusterTPUSockets
                         end) ∅ clusterNodes))
  end.

(** Returns the error ([None] when nil) and the receiver after the call;
    the outer [option] is [None] for a panic. *)
Definition Load (c : t) (connection : rpc_Client) (startSlot : Z) : option (option error * t) :=
  let c := set_Connection c (Some connection) in
  connection' ← Connection c;
  match GetEpochInfo connection' CommitmentProcessed with
  | Err err => Some (Some err, c)
  | Ok epochInfo =>
      let c := set_SlotsInEpoch c (EpochInfo_SlotsInEpoch epochInfo) in
      r ← FetchSlotLeaders c startSlot (SlotsInEpoch c);
      match r with
      | Err err => Some (Some err, c)
      | Ok slotLeaders =>
          let c := set_Leaders c slotLeaders in
          r ← FetchClusterTPUSockets c;
          match r with
          | Err err => Some (Some err, c)
          | Ok clusterTPUSockets => Some (None, set_LeaderTPUMap c clusterTPUSockets)
          end
      end
  end.

Definition LastSlot (c : t) : Z :=
  u64 (u64 (FirstSlot c + Z.of_nat (length (Leaders c))) - 1).

(** [zeroKey] stands for [solana.PublicKey{}]; an index outside [Leaders]
    panics: [None]. *)
Definition GetSlotLeader (zeroKey : PublicKey) (c : t) (slot : Z) : option PublicKey :=
  if FirstSlot c <=? slot then Leaders c !! Z.to_nat (u64 (slot - FirstSlot c))
  else Some zeroKey.

(** Reading a Go map at a missing key gives the zero value. *)
Definition map_get (m : gmap string string) (k : string) : string := default "" (m !! k).

(** The body of the [range] loop over [Leaders], with the three local
    variables of the method as accumulators. *)
Fixpoint GetLeaderSockets_loop (m : gmap string string) (fanoutSlots : Z)
    (leaders : list PublicKey)
    (alreadyCheckedLeaders leaderTPUSockets : list string) (checkedSlots : Z) : list string :=
  match leaders with
  | [] => leaderTPUSockets
  | leader :: rest =>
      let tpuSocket := map_get m (PublicKey_String leader) in
      let '(alreadyCheckedLeaders, leaderTPUSockets) :=
        if negb (String.eqb tpuSocket "") then
          if negb (CheckIfDuplicate alreadyCheckedLeaders (PublicKey_String leader)) then
            (alreadyCheckedLeaders ++ [PublicKey_String leader], leaderTPUSockets ++ [tpuSocket])
          else (alreadyCheckedLeaders, leaderTPUSockets)
        else (alreadyCheckedLeaders, leaderTPUSockets) in
      let checkedSlots := u64 (checkedSlots + 1) in
      if checkedSlots =? fanoutSlots then leaderTPUSockets
      else GetLeaderSockets_loop m fanoutSlots rest alreadyCheckedLeaders leaderTPUSockets checkedSlots
  end.

Definition GetLeaderSockets (c : t) (fanoutSlots : Z) : list string :=
  GetLeaderSockets_loop (LeaderTPUMap c) fanoutSlots (Leaders c) [] [] 0.

Section Converted.
(** [*net.UDPAddr] and [net.ResolveUDPAddr("udp", _)], whose error the
    method drops: [None] is the nil address. *)
Context {UDPAddr : Type} (ResolveUDPAddr : string -> option UDPAddr).

Fixpoint GetLeaderSocketsConverted_loop (m : gmap string string) (fanoutSlots : Z)
    (leaders : list PublicKey)
    (alreadyCheckedLeaders : list string) (leaderTPUSockets : list (option UDPAddr))
    (checkedSlots : Z) : list (option UDPAddr) :=
  match leaders with
  | [] => leaderTPUSockets
  | leader :: rest =>
      let tpuSocket := map_get m (PublicKey_String leader) in
      let '(alreadyCheckedLeaders, leaderTPUSockets) :=
        if negb (String.eqb tpuSocket "") then
          if negb (CheckIfDuplicate alreadyCheckedLeaders (PublicKey_String leader)) then
            let leaderAddress := ResolveUDPAddr tpuSocket in
            (alreadyCheckedLeaders ++ [PublicKey_String leader], leaderTPUSockets ++ [leaderAddress])
          else (alreadyCheckedLeaders, leaderTPUSockets)
        else (alreadyCheckedLeaders, leaderTPUSockets) in
      let checkedSlots := u64 (checkedSlots + 1) in
      if checkedSlots =? fanoutSlots then leaderTPUSockets
      else GetLeaderSocketsConverted_loop m fanoutSlots rest alreadyCheckedLeaders
             leaderTPUSockets checkedSlots
  end.

Definition GetLeaderSocketsConverted (c : t) (fanoutSlots : Z) : list (option UDPAddr) :=
  GetLeaderSocketsConverted_loop (LeaderTPUMap c) fanoutSlots (Leaders c) [] [] 0.
End Converted.

End LeaderTPUCache.

(** ** Leader service: the sequential part of start-up and of one tick *)

(** The streaming endpoint, [ws.Connect] and [SlotsUpdatesSubscribe]. *)
Record ws_Client := { SlotsUpdatesSubscribe : result unit }.
Record ws_Env := { ws_Connect : string -> result ws_Client }.

(** Modelled from the spec: the event types of package ws are not among the
    sources.  The design document names "slot completed" and "first
    block-piece received" and says that any other event type is ignored;
    the two that the listener tests are taken to be different from each
    other and from the rest. *)
Inductive SlotsUpdatesType :=
| SlotsUpdatesFirstShredReceived
| SlotsUpdatesCompleted
| SlotsUpdatesOther (name : string).

(** What [Subscription.Recv()] delivers. *)
Record SlotsUpdatesResult := { Message_Type : SlotsUpdatesType; Message_Slot : Z }.

(** A Go [int64], as [UnixMilli()] returns. *)
Definition int64 (z : Z) : Z := (z + 2 ^ 63) mod 2 ^ 64 - 2 ^ 63.

Module LeaderTPUService.

Record t := {
RecentSlots : option RecentLeaderSlots.t;
LTPUCache : option LeaderTPUCache.t;
Subscription : option unit;
Connection : option rpc_Client;
WSConnection : option ws_Client;
LeaderConnections : list string
}.

(** [LeaderTPUService{}] *)
Definition zero : t :=
{| RecentSlots := None; LTPUCache := None; Subscription := None; Connection := None;
   WSConnection := None; LeaderConnections := [] |}.

Definition set_RecentSlots (s : t) (v : option RecentLeaderSlots.t) : t :=
{| RecentSlots := v; LTPUCache := LTPUCache s; Subscription := Subscription s;
   Connection := Connection s; WSConnection := WSConnection s;
   LeaderConnections := LeaderConnections s |}.
Definition set_LTPUCache (s : t) (v : option LeaderTPUCache.t) : t :=
{| RecentSlots := RecentSlots s; LTPUCache := v; Subscription := Subscription s;
   Connection := Connection s; WSConnection := WSConnection s;
   LeaderConnections := LeaderConnections s |}.
Definition set_Subscription (s : t) (v : option unit) : t :=
{| RecentSlots := RecentSlots s; LTPUCache := LTPUCache s; Subscription := v;
   Connection := Connection s; WSConnection := WSConnection s;
   LeaderConnections := LeaderConnections s |}.
Definition set_Connection (s : t) (v : option rpc_Client) : t :=
{| RecentSlots := RecentSlots s; LTPUCache := LTPUCache s; Subscription := Subscription s;
   Connection := v; WSConnection := WSConnection s;
   LeaderConnections := LeaderConnections s |}.

(** The two goroutines that [Load] starts (the listener and [Run]) are not
  part of the value returned here. *)
Definition Load (s : t) (connection : rpc_Client) (ws : ws_Env) (websocketURL : string)
  (fanout : Z) : option (option error * t) :=
let s := set_Connection s (Some connection) in
match GetSlot connection CommitmentProcessed with
| Err err => Some (Some err, s)
| Ok slot =>
    let recentSlots := RecentLeaderSlots.Load RecentLeaderSlots.empty slot in
    let s := set_RecentSlots s (Some recentSlots) in
    '(err, leaderTPUCache) ← LeaderTPUCache.Load LeaderTPUCache.zero connection slot;
    match err with
    | Some err => Some (Some err, s)
    | None =>
        let s := set_LTPUCache s (Some leaderTPUCache) in
        if negb (String.eqb websocketURL "") then
          match ws_Connect ws websocketURL with
          | Ok wsConnection =>
              match SlotsUpdatesSubscribe wsConnection with
              | Ok subscription => Some (None, set_Subscription s (Some subscription))
              | Err _ => Some (None, set_Connection s None)
              end
          | Err _ => Some (None, set_Connection s None)
          end
        else Some (None, set_Connection s None)
    end
end.

Definition LeaderTPUSockets (s : t) (fanoutSlots : Z) : option (list string) :=
c ← LTPUCache s;
Some (LeaderTPUCache.GetLeaderSockets c fanoutSlots).

(** One tick of [Run] after the sleep: estimate the slot and, when the
  window is about to run out, fetch it again from the estimate.  The
  boolean tells whether the fetch failed (the tick then retries after
  100ms).  A nil slice returned without an error, which [Run] treats as a
  failure, is not told apart from an empty one. *)
Definition Run_leaders (s : t) (fanout : Z) : option (bool * t) :=
recent ← RecentSlots s;
c ← LTPUCache s;
let '(currentSlot, recent) := RecentLeaderSlots.EstimatedCurrentSlot recent in
let s := set_RecentSlots s (Some recent) in
if u64 (LeaderTPUCache.LastSlot c - fanout) <=? currentSlot then
  r ← LeaderTPUCache.FetchSlotLeaders c currentSlot (LeaderTPUCache.SlotsInEpoch c);
  match r with
  | Err _ => Some (true, s)
  | Ok slotLeaders =>
      let c := LeaderTPUCache.set_FirstSlot c currentSlot in
      let c := LeaderTPUCache.set_Leaders c slotLeaders in
      Some (false, set_LTPUCache s (Some c))
  end
else Some (false, s).

(** One turn of the listener that [Load] starts: what a [Recv] does to the
    estimator. *)
Definition Listen (recent : RecentLeaderSlots.t) (received : result SlotsUpdatesResult)
    : RecentLeaderSlots.t :=
  match received with
  | Err _ => recent
  | Ok message =>
      let recent :=
        match Message_Type message with
        | SlotsUpdatesCompleted =>
            RecentLeaderSlots.RecordSlot recent (u64 (Message_Slot message + 1))
        | _ => recent
        end in
      match Message_Type message with
      | SlotsUpdatesFirstShredReceived =>
          RecentLeaderSlots.RecordSlot recent (Message_Slot message)
      | _ => recent
      end
  end.

(** The local variables of [Run]; the time of the last refresh is kept as
    its [UnixMilli()]. *)
Record run_vars := { lastClusterRefreshTime : Z; sleepMs : Z }.

(** One iteration of the loop of [Run].  [now] is what [time.Now()] reads
    at the top of the iteration and [refreshed] what it reads after a
    successful refresh, both as [UnixMilli()].  The last component is the
    sleep of this iteration in milliseconds, [None] when the iteration
    ends before [time.Sleep]. *)
Definition Run_tick (s : t) (fanout : Z) (v : run_vars) (now refreshed : Z)
    : option (t * run_vars * option Z) :=
  topology ←
    (if 5000 * 60 <? int64 (now - lastClusterRefreshTime v) then
       c ← LTPUCache s;
       r ← LeaderTPUCache.FetchClusterTPUSockets c;
       match r with
       | Err _ => Some None
       | Ok latestTPUSockets =>
           Some (Some (set_LTPUCache s (Some (LeaderTPUCache.set_LeaderTPUMap c latestTPUSockets)),
                       {| lastClusterRefreshTime := refreshed; sleepMs := sleepMs v |}))
       end
     else Some (Some (s, v)));
  match topology with
  | None =>
      Some (s, {| lastClusterRefreshTime := lastClusterRefreshTime v; sleepMs := 100 |}, None)
  | Some (s, v) =>
      '(failed, s) ← Run_leaders s fanout;
      Some (s,
            {| lastClusterRefreshTime := lastClusterRefreshTime v;
               sleepMs := if (failed : bool) then 100 else 1000 |},
            Some (sleepMs v))
  end.

End LeaderTPUService.

(** ** The datagram transport *)

(** What a send does on the network, in order. *)
Inductive event :=
| EvDial (address : string) (err : option error)
| EvWrite (address : string) (payload : list Byte.byte) (err : option error)
| EvClose (address : string).

(** The outcome of [net.Dial("udp", address)] and of [connection.Write],
    as a function of everything the send has done so far: [None] is
    success, [Some text] an error with that text. *)
Record Net := {
  net_Dial : list event -> string -> option error;
  conn_Write : list event -> string -> list Byte.byte -> option error
}.

(** A Go [int], taken to be 64 bits wide. *)
Definition int (z : Z) : Z := (z + 2 ^ 63) mod 2 ^ 64 - 2 ^ 63.

(** ** Client *)

Record TPUClientConfig := { Config_FanoutSlots : Z }.

(** A [*solana.Transaction], as far as the client uses it: what
    [MarshalBinary()] returns and the [Signatures] field. *)
Record Transaction (Signature : Type) := {
  MarshalBinary : result (list Byte.byte);
  Signatures : list Signature
}.
Arguments MarshalBinary {Signature} _.
Arguments Signatures {Signature} _.

Module TPUClient.

Record t := {
  FanoutSlots : Z;
  LTPUService : option LeaderTPUService.t;
  Exit : bool;
  Connection : option rpc_Client
}.

Definition zero : t :=
  {| FanoutSlots := 0; LTPUService := None; Exit := false; Connection := None |}.

Definition clamp_fanout (configured : Z) : Z :=
  uint64_of_float64
    (math_Max (math_Min (float64_of_uint64 configured) (float64_of_uint64 MAX_FANOUT_SLOTS)) 1).

Definition Load (c : t) (connection : rpc_Client) (ws : ws_Env) (websocketURL : string)
    (config : TPUClientConfig) : option (option error * t) :=
  let fanoutSlots := clamp_fanout (Config_FanoutSlots config) in
  '(err, leaderTPUService) ←
    LeaderTPUService.Load LeaderTPUService.zero connection ws websocketURL fanoutSlots;
  Some (err, {| FanoutSlots := fanoutSlots; LTPUService := Some leaderTPUService;
                Exit := false; Connection := Some connection |}).

Section Send.
Context (net : Net) (transaction : list Byte.byte).

(** The dial loop for one leader; [remaining] is [3 - connectionTries].
    Returns [failed], the events so far and [lastError]. *)
Fixpoint dial (leader : string) (remaining : nat) (h : list event) (lastError : string)
    : bool * list event * string :=
  match net_Dial net h leader with
  | Some err =>
      let h := h ++ [EvDial leader (Some err)] in
      let lastError := err in
      match remaining with
      | S remaining => dial leader remaining h lastError
      | O => (true, h, lastError)
      end
  | None => (false, h ++ [EvDial leader None], lastError)
  end.

(** [for i := 0; i < amount; i++], with [n] iterations left. *)
Fixpoint write (leader : string) (n : nat) (h : list event) (successes : Z)
    (lastError : string) : list event * Z * string :=
  match n with
  | O => (h, successes, lastError)
  | S n =>
      match conn_Write net h leader transaction with
      | Some err => write leader n (h ++ [EvWrite leader transaction (Some err)]) successes err
      | None => write leader n (h ++ [EvWrite leader transaction None])
                  (int (successes + 1)) lastError
      end
  end.

Fixpoint send (amount : Z) (leaderTPUSockets : list string) (h : list event)
    (successes : Z) (lastError : string) : list event * Z * string :=
  match leaderTPUSockets with
  | [] => (h, successes, lastError)
  | leader :: rest =>
      let '(failed, h, lastError) := dial leader 3 h lastError in
      if failed then send amount rest h successes lastError
      else
        let '(h, successes, lastError) :=
          write leader (Z.to_nat amount) h successes lastError in
        send amount rest (h ++ [EvClose leader]) successes lastError
  end.

(** Returns the error ([None] when nil) and what was done on the
    network. *)
Definition SendRawTransaction (c : t) (amount : Z) : option (option error * list event) :=
  s ← LTPUService c;
  leaderTPUSockets ← LeaderTPUService.LeaderTPUSockets s (FanoutSlots c);
  let '(h, successes, lastError) := send amount leaderTPUSockets [] 0 "" in
  if successes =? 0 then Some (Some lastError, h) else Some (None, h).
End Send.

Section SendTransaction.
(** [solana.Signature] and its zero value [solana.Signature{}]. *)
Context {Signature : Type} (zeroSignature : Signature).
Context (net : Net).

(** Returns the signature, the error ([None] when nil) and what was done on
    the network; [Signatures[0]] on a transaction without signatures
    panics. *)
Definition SendTransaction (c : t) (transaction : Transaction Signature) (amount : Z)
    : option (Signature * option error * list event) :=
  match MarshalBinary transaction with
  | Err err => Some (zeroSignature, Some err, [])
  | Ok rawTransaction =>
      '(err, h) ← SendRawTransaction net rawTransaction c amount;
      match err with
      | Some err => Some (zeroSignature, Some err, h)
      | None =>
          signature ← Signatures transaction !! 0%nat;
          Some (signature, None, h)
      end
  end.
End SendTransaction.

Section ThroughSocket.
(** The caller's socket takes datagrams for [*net.UDPAddr] destinations,
    nil ones included; what [WriteToUDP] returns is dropped by the
    method, so only the attempts are kept, in order. *)
Context {UDPAddr : Type} (ResolveUDPAddr : string -> option UDPAddr).
Context (transaction : list Byte.byte).

Fixpoint write_to (leader : option UDPAddr) (n : nat)
    (h : list (option UDPAddr * list Byte.byte)) : list (option UDPAddr * list Byte.byte) :=
  match n with
  | O => h
  | S n => write_to leader n (h ++ [(leader, transaction)])
  end.

Fixpoint send_through (amount : Z) (leaders : list (option UDPAddr))
    (h : list (option UDPAddr * list Byte.byte)) : list (option UDPAddr * list Byte.byte) :=
  match leaders with
  | [] => h
  | leader :: rest => send_through amount rest (write_to leader (Z.to_nat amount) h)
  end.

Definition SendRawTransactionThroughSocket (c : t) (amount : Z)
    : option (option error * list (option UDPAddr * list Byte.byte)) :=
  s ← LTPUService c;
  cache ← LeaderTPUService.LTPUCache s;
  Some (None,
        send_through amount
          (LeaderTPUCache.GetLeaderSocketsConverted ResolveUDPAddr cache (FanoutSlots c)) []).
End ThroughSocket.

Section SendTransactionThroughSocket.
Context {Signature : Type} (zeroSignature : Signature).
Context {UDPAddr : Type} (ResolveUDPAddr : string -> option UDPAddr).

Definition SendTransactionThroughSocket (c : t) (transaction : Transaction Signature)
    (amount : Z)
    : option (Signature * option error * list (option UDPAddr * list Byte.byte)) :=
  match MarshalBinary transaction with
  | Err err => Some (zeroSignature, Some err, [])
  | Ok rawTransaction =>
      '(err, h) ← SendRawTransactionThroughSocket ResolveUDPAddr rawTransaction c amount;
      match err with
      | Some err => Some (zeroSignature, Some err, h)
      | None =>
          signature ← Signatures transaction !! 0%nat;
          Some (signature, None, h)
      end
  end.
End SendTransactionThroughSocket.

(** [New]: the client is returned next to the error, also when start-up
    fails. *)
Definition New (connection : rpc_Client) (ws : ws_Env) (websocketURL : string)
    (config : TPUClientConfig) : option (t * option error) :=
  '(err, tpuClient) ← Load zero connection ws websocketURL config;
  Some (tpuClient, err).

End TPUClient.


(** ** The estimator as the design document words it *)

(** A stored sample that converts back to [uint64] without loss. *)
Definition sample_in_range (s : Z) : Prop := 0 <= s < 2 ^ 64.

(** A sample window as [Load] and [RecordSlot] build it from slots below
    2^64 - 1024: at most 12 samples, none above the largest [float64]
    under 2^64 ([window_ok_empty], [window_ok_Load], [window_ok_RecordSlot],
    [window_ok_EstimatedCurrentSlot]). *)
Definition sample_ok (s : Z) : Prop := 0 <= s <= 2 ^ 64 - 2048.
Definition window_ok (w : list Z) : Prop := (length w <= 12)%nat /\ Forall sample_ok w.

(** The windows that the service can reach: [Load] on a new estimator,
    then recordings and estimates in any order. *)
Inductive window_built : RecentLeaderSlots.t -> Prop :=
| built_Load slot :
    0 <= slot < 2 ^ 64 - 1024 ->
    window_built (RecentLeaderSlots.Load RecentLeaderSlots.empty slot)
| built_RecordSlot r slot :
    window_built r -> 0 <= slot < 2 ^ 64 - 1024 ->
    window_built (RecentLeaderSlots.RecordSlot r slot)
| built_EstimatedCurrentSlot r :
    window_built r -> window_built (snd (RecentLeaderSlots.EstimatedCurrentSlot r)).

(** "the maximum sample value", when there is a sample. *)
Definition spec_maximum (l : list Z) : option Z :=
  match l with
  | [] => None
  | x :: l' => Some (foldl Z.max x l')
  end.

(** "sort samples ascending; let n = count, medianIndex = floor((n-1)/2),
    median = samples[medianIndex]; expected = median + (n-1-medianIndex);
    cap = expected + MAX_SLOT_SKIP_DISTANCE; return the maximum sample value
    that is <= cap; if no sample qualifies, return 0", over unbounded
    integers. *)
Definition spec_estimate (samples : list Z) : Z :=
  let sorted := merge_sort Z.le samples in
  let n := length samples in
  let medianIndex := ((n - 1) / 2)%nat in
  let median := nth medianIndex sorted 0 in
  let expected := median + Z.of_nat (n - 1 - medianIndex) in
  let cap := expected + MAX_SLOT_SKIP_DISTANCE in
  default 0 (spec_maximum (filter (fun s => s <= cap) samples)).

(** The last [n] elements of a sequence. *)
Definition lastn {A} (n : nat) (l : list A) : list A := drop (length l - n) l.

(** ** The fan-out as the design document words it *)

(** "deduplicates by leader identity, keeping first-seen order". *)
Fixpoint first_seen (l : list string) : list string :=
  match l with
  | [] => []
  | x :: l' => x :: filter (fun y => y <> x) (first_seen l')
  end.

(** The identities and the addresses that a walk over the positions
    [examined] yields: "skips leaders with no known address; deduplicates
    by leader identity". *)
Definition spec_leaders (m : gmap string string) (examined : list PublicKey) : list string :=
  first_seen (filter (fun leader => LeaderTPUCache.map_get m leader <> "") examined).
Definition spec_sockets (m : gmap string string) (examined : list PublicKey) : list string :=
  map (LeaderTPUCache.map_get m) (spec_leaders m examined).

(** The identities not yet in [seen], each once, in the order of their
    first occurrence. *)
Fixpoint fresh (seen : list string) (l : list string) : list string :=
  match l with
  | [] => []
  | x :: l' => if decide (x ∈ seen) then fresh seen l' else x :: fresh (seen ++ [x]) l'
  end.

(** How many positions the loop of [GetLeaderSockets] examines when it
    starts with the counter at [c] on [len] leaders. *)
Definition examined (fanoutSlots c : Z) (len : nat) : nat :=
  if c <? fanoutSlots then Nat.min (Z.to_nat (fanoutSlots - c)) len else len.

(** ** Sample collaborators *)

Definition leader_of_slot (slot : Z) : PublicKey :=
  if Z.even (slot / 4) then "A" else "B".

Definition rpc_example : rpc_Client :=
  {| GetEpochInfo := fun _ => Ok {| EpochInfo_SlotsInEpoch := 432000 |};
     GetSlotLeaders := fun startSlot limit =>
       Ok (map (fun i => leader_of_slot (startSlot + Z.of_nat i)) (seq 0 (Z.to_nat limit)));
     GetClusterNodes :=
       Ok [ {| Pubkey := "A"; TPU := Some "addr1" |};
            {| Pubkey := "B"; TPU := Some "addr2" |};
            {| Pubkey := "C"; TPU := None |} ];
     GetSlot := fun _ => Ok 1000 |}.

Definition ws_example : ws_Env :=
  {| ws_Connect := fun _ => Ok {| SlotsUpdatesSubscribe := Ok tt |} |}.

(** A cache whose window is A, A, B, with addresses for A and B. *)
Definition cache_example : LeaderTPUCache.t :=
  {| LeaderTPUCache.LeaderTPUMap := <["A" := "addr1"]> (<["B" := "addr2"]> ∅);
     LeaderTPUCache.Connection := None;
     LeaderTPUCache.FirstSlot := 0;
     LeaderTPUCache.SlotsInEpoch := 432000;
     LeaderTPUCache.LastEpochInfoSlot := 0;
     LeaderTPUCache.Leaders := ["A"; "A"; "B"] |}.

(** ** The send as the design document words it *)

(** The error text that an event carries, if it is a failure. *)
Definition event_error (ev : event) : option error :=
  match ev with
  | EvDial _ err => err
  | EvWrite _ _ err => err
  | EvClose _ => None
  end.

(** "the last recorded error text": the text of the last failure among
    [evs], and [lastError] when there is none. *)
Definition record_errors (lastError : string) (evs : list event) : string :=
  foldl (fun acc ev => default acc (event_error ev)) lastError evs.

Definition write_succeeded (ev : event) : bool :=
  match ev with
  | EvWrite _ _ None => true
  | _ => false
  end.

Fixpoint count_successes (evs : list event) : Z :=
  match evs with
  | [] => 0
  | ev :: evs => (if write_succeeded ev then 1 else 0) + count_successes evs
  end.

Definition failed_dials (leader : string) (texts : list error) : list event :=
  map (fun text => EvDial leader (Some text)) texts.

(** What is done for one address: either at most 3 failed dials, a
    successful one, [amount] writes and the close; or 4 failed dials and
    nothing else. *)
Inductive leader_trace (transaction : list Byte.byte) (amount : Z) (leader : string)
  : list event -> Prop :=
| trace_connected (texts : list error) (outcomes : list (option error)) :
    (length texts <= 3)%nat ->
    length outcomes = Z.to_nat amount ->
    leader_trace transaction amount leader
      (failed_dials leader texts ++ [EvDial leader None]
       ++ map (EvWrite leader transaction) outcomes ++ [EvClose leader])
| trace_skipped (texts : list error) :
    length texts = 4%nat ->
    leader_trace transaction amount leader (failed_dials leader texts).

(** A loaded client whose cache is [cache_example], with a fan-out of 3. *)
Definition client_example : TPUClient.t :=
  {| TPUClient.FanoutSlots := 3;
     TPUClient.LTPUService :=
       Some {| LeaderTPUService.RecentSlots := Some {| RecentLeaderSlots.RecentSlots := [1000] |};
               LeaderTPUService.LTPUCache := Some cache_example;
               LeaderTPUService.Subscription := None;
               LeaderTPUService.Connection := None;
               LeaderTPUService.WSConnection := None;
               LeaderTPUService.LeaderConnections := [] |};
     TPUClient.Exit := false;
     TPUClient.Connection := Some rpc_example |}.

(** A network on which addr1 cannot be dialled and everything else
    works. *)
Definition net_addr1_down : Net :=
  {| net_Dial := fun _ address =>
       if String.eqb address "addr1" then Some "dial udp: no route to host" else None;
     conn_Write := fun _ _ _ => None |}.

(** A network on which the very first dial fails and everything else
    works. *)
Definition net_first_dial_fails : Net :=
  {| net_Dial := fun h _ =>
       match h with [] => Some "dial udp: i/o timeout" | _ => None end;
     conn_Write := fun _ _ _ => None |}.

(** ** The listener as the design document words it *)

(** The slot that a delivery makes the listener record, if any: "on a slot
    completed event for slot S, record S+1; on a first block-piece received
    event for slot S, record S; any other event types are ignored". *)
Definition recorded_slot (received : result SlotsUpdatesResult) : option Z :=
  match received with
  | Ok {| Message_Type := SlotsUpdatesCompleted; Message_Slot := slot |} => Some (u64 (slot + 1))
  | Ok {| Message_Type := SlotsUpdatesFirstShredReceived; Message_Slot := slot |} => Some slot
  | _ => None
  end.

(** ** The topology table, read off the node list *)

(** The address that the cluster nodes give for an identity: that of the
    last node with this identity that has an address. *)
Fixpoint spec_tpu (nodes : list GetClusterNodesResult) (identity : string) : option string :=
  match nodes with
  | [] => None
  | node :: rest =>
      match spec_tpu rest identity with
      | Some address => Some address
      | None => if decide (PublicKey_String (Pubkey node) = identity) then TPU node else None
      end
  end.

(** The cache that [Load] fills from [rpc_example] at slot 1000. *)
Definition loaded_example : LeaderTPUCache.t :=
  match LeaderTPUCache.Load LeaderTPUCache.zero rpc_example 1000 with
  | Some (_, c) => c
  | None => LeaderTPUCache.zero
  end.

(** ** Start-up as the design document words it *)

(** Whether the progress listener gets a subscription: an endpoint is
    configured, and connecting and subscribing both succeed. *)
Definition streaming (ws : ws_Env) (websocketURL : string) : bool :=
  negb (String.eqb websocketURL "") &&
  match ws_Connect ws websocketURL with
  | Ok wsConnection =>
      match SlotsUpdatesSubscribe wsConnection with
      | Ok _ => true
      | Err _ => false
      end
  | Err _ => false
  end.

(** The service that [Load] makes from [rpc_example] without a streaming
    endpoint. *)
Definition service_example : LeaderTPUService.t :=
  match LeaderTPUService.Load LeaderTPUService.zero rpc_example ws_example "" 12 with
  | Some (_, s) => s
  | None => LeaderTPUService.zero
  end.

(** A query interface whose topology query fails. *)
Definition rpc_topology_down : rpc_Client :=
  {| GetEpochInfo := GetEpochInfo rpc_example;
     GetSlotLeaders := GetSlotLeaders rpc_example;
     GetClusterNodes := Err "rpc: connection refused";
     GetSlot := GetSlot rpc_example |}.

(** The error of start-up, read off the queries: that of the first of the
    slot query, the epoch query, the leader query and the topology query
    that fails. *)
Definition startup_error (connection : rpc_Client) : option error :=
  match GetSlot connection CommitmentProcessed with
  | Err e => Some e
  | Ok slot =>
      match GetEpochInfo connection CommitmentProcessed with
      | Err e => Some e
      | Ok epochInfo =>
          match GetSlotLeaders connection slot
                  (LeaderTPUCache.fanout_window (EpochInfo_SlotsInEpoch epochInfo)) with
          | Err e => Some e
          | Ok _ =>
              match GetClusterNodes connection with
              | Err e => Some e
              | Ok _ => None
              end
          end
      end
  end.

(** ** Counting what a send does *)

Definition is_dial (ev : event) : bool :=
  match ev with EvDial _ _ => true | _ => false end.
Definition is_connected (ev : event) : bool :=
  match ev with EvDial _ None => true | _ => false end.
Definition is_write (ev : event) : bool :=
  match ev with EvWrite _ _ _ => true | _ => false end.
Definition is_close (ev : event) : bool :=
  match ev with EvClose _ => true | _ => false end.

Definition count_events (p : event -> bool) (h : list event) : nat :=
  length (filter (fun ev => p ev = true) h).

(** An event that concerns one of [addresses] and, if it is a write,
    carries [payload]. *)
Definition event_within (addresses : list string) (payload : list Byte.byte) (ev : event)
    : Prop :=
  match ev with
  | EvDial address _ => address ∈ addresses
  | EvWrite address written _ => address ∈ addresses /\ written = payload
  | EvClose address => address ∈ addresses
  end.

(** What a send does on a network without failures: one dial, the writes
    and the close, address after address. *)
Definition healthy_trace (transaction : list Byte.byte) (amount : Z) (addresses : list string)
    : list event :=
  concat (map (fun address =>
                 [EvDial address None]
                 ++ replicate (Z.to_nat amount) (EvWrite address transaction None)
                 ++ [EvClose address]) addresses).

(** A network without failures. *)
Definition net_healthy : Net :=
  {| net_Dial := fun _ _ => None; conn_Write := fun _ _ _ => None |}.

(** * Properties *)

(** ** Conversions *)

Lemma u64_small z : 0 <= z < 2 ^ 64 -> u64 z = z.
Proof. intros H. unfold u64. apply Z.mod_small. exact H. Qed.

Lemma uint64_of_float64_exact f : 0 <= f < 2 ^ 64 -> uint64_of_float64 f = f.
Proof.
  intros [H0 H1]. unfold uint64_of_float64.
  destruct (Z.ltb_spec f 0); [lia|].
  destruct (Z.ltb_spec f (2 ^ 64)); [reflexivity|lia].
Qed.

Lemma float64_of_uint64_exact u : u < 2 ^ 53 -> float64_of_uint64 u = u.
Proof.
  intros H. unfold float64_of_uint64.
  destruct (Z.ltb_spec u (2 ^ 53)); [reflexivity|lia].
Qed.

(** The shape of a rounded conversion: the exponent of the last place is
    between 1 and 11 and the significand keeps 53 bits. *)
Lemma float64_of_uint64_rounded u :
  2 ^ 53 <= u < 2 ^ 64 ->
  exists e q, 1 <= e <= 11 /\ 2 ^ 52 <= q < 2 ^ 53 /\ q * 2 ^ e <= u < (q + 1) * 2 ^ e /\
    (float64_of_uint64 u = q * 2 ^ e \/
     (float64_of_uint64 u = (q + 1) * 2 ^ e /\ q * 2 ^ e + 2 ^ (e - 1) <= u)).
Proof.
  intros [Hlo Hhi]. unfold float64_of_uint64.
  destruct (Z.ltb_spec u (2 ^ 53)) as [?|_]; [lia|].
  assert (Hu : 0 < u) by lia.
  pose proof (Z.log2_spec u Hu) as [Hl1 Hl2].
  assert (53 <= Z.log2 u) by (apply Z.log2_le_pow2; lia).
  assert (Z.log2 u < 64) by (apply Z.log2_lt_pow2; lia).
  set (e := Z.log2 u - 52) in *.
  assert (He : 1 <= e <= 11) by (unfold e; lia).
  assert (Hpe : 0 < 2 ^ e) by (apply Z.pow_pos_nonneg; lia).
  rewrite Z.shiftr_div_pow2 by lia.
  rewrite Z.land_ones by lia.
  set (q := u / 2 ^ e).
  set (r := u mod 2 ^ e).
  assert (Hdm : u = 2 ^ e * q + r) by (apply Z.div_mod; lia).
  assert (Hr : 0 <= r < 2 ^ e) by (apply Z.mod_pos_bound; lia).
  assert (Hsplit : 2 ^ Z.log2 u = 2 ^ 52 * 2 ^ e).
  { rewrite <- Z.pow_add_r by lia. f_equal. unfold e. lia. }
  assert (Hsplit' : 2 ^ Z.succ (Z.log2 u) = 2 ^ 53 * 2 ^ e).
  { rewrite <- Z.pow_add_r by lia. f_equal. unfold e. lia. }
  assert (Hhalf : 2 ^ e = 2 * 2 ^ (e - 1)).
  { replace e with (1 + (e - 1)) at 1 by lia. rewrite Z.pow_add_r by lia. reflexivity. }
  assert (Hq : 2 ^ 52 <= q < 2 ^ 53) by nia.
  exists e, q. split; [exact He|]. split; [exact Hq|]. split; [nia|].
  rewrite !Z.shiftl_mul_pow2 by lia.
  destruct (Z.ltb_spec (2 ^ (e - 1)) r); simpl.
  - right. split; [reflexivity|nia].
  - destruct (Z.eqb_spec r (2 ^ (e - 1))); simpl.
    + destruct (Z.odd q); [right; split; [reflexivity|nia]|left; reflexivity].
    + left. reflexivity.
Qed.

Lemma float64_of_uint64_large u : 2 ^ 53 <= u < 2 ^ 64 -> 2 ^ 53 <= float64_of_uint64 u.
Proof.
  intros H. destruct (float64_of_uint64_rounded u H) as (e & q & He & Hq & Hu & Hr).
  assert (2 <= 2 ^ e) by (change 2 with (2 ^ 1) at 1; apply Z.pow_le_mono_r; lia).
  destruct Hr as [-> | [-> _]]; nia.
Qed.

(** Below 2^64 - 1024 the conversion stays a [uint64]; the largest
    [float64] under 2^64 is 2^64 - 2048. *)
Lemma float64_of_uint64_range u :
  0 <= u < 2 ^ 64 - 1024 -> 0 <= float64_of_uint64 u <= 2 ^ 64 - 2048.
Proof.
  intros [H0 H1].
  destruct (Z.lt_ge_cases u (2 ^ 53)) as [Hs|Hl].
  - rewrite float64_of_uint64_exact by exact Hs. lia.
  - destruct (float64_of_uint64_rounded u) as (e & q & He & Hq & Hu & Hr); [lia|].
    assert (Hpe : 0 < 2 ^ e) by (apply Z.pow_pos_nonneg; lia).
    assert (Hhalf : 2 ^ e = 2 * 2 ^ (e - 1)).
    { replace e with (1 + (e - 1)) at 1 by lia. rewrite Z.pow_add_r by lia. reflexivity. }
    assert (Hle : 2 ^ e <= 2 ^ 11) by (apply Z.pow_le_mono_r; lia).
    destruct Hr as [-> | [-> Hup]]; [nia|].
    split; [nia|].
    assert (Hcases : e = 11 \/ e <= 10) by lia.
    destruct Hcases as [-> | He10].
    + change (2 ^ 11) with 2048 in *. change (2 ^ (11 - 1)) with 1024 in *. lia.
    + assert (2 ^ e <= 2 ^ 10) by (apply Z.pow_le_mono_r; lia).
      assert (q * 2 ^ e <= 2 ^ 53 * 2 ^ 10) by nia.
      change (2 ^ 10) with 1024 in *. lia.
Qed.

(** Rounding at work: ties go to the even significand, and the top 1024
    values of [uint64] round up to 2^64. *)
Example float64_of_uint64_tie_even : float64_of_uint64 (2 ^ 53 + 1) = 2 ^ 53.
Proof. vm_compute. reflexivity. Qed.
Example float64_of_uint64_tie_up : float64_of_uint64 (2 ^ 53 + 3) = 2 ^ 53 + 4.
Proof. vm_compute. reflexivity. Qed.
Example float64_of_uint64_top : float64_of_uint64 (2 ^ 64 - 1025) = 2 ^ 64 - 2048.
Proof. vm_compute. reflexivity. Qed.
Example float64_of_uint64_overflow : float64_of_uint64 (2 ^ 64 - 1024) = 2 ^ 64.
Proof. vm_compute. reflexivity. Qed.

(** ** Sorting *)

#[local] Instance flip_Zle_total : Total (flip Z.le).
Proof. intros x y. unfold flip. lia. Qed.
#[local] Instance flip_Zle_trans : Transitive (flip Z.le).
Proof. intros x y z. unfold flip. lia. Qed.
#[local] Instance flip_Zle_antisymm : AntiSymm (=) (flip Z.le).
Proof. intros x y. unfold flip. lia. Qed.

Lemma sort_Float64s_sorted s : Sorted Z.le (sort_Float64s s).
Proof. apply Sorted_merge_sort; apply _. Qed.

Lemma sort_Float64s_perm s : sort_Float64s s ≡ₚ s.
Proof. apply merge_sort_Permutation. Qed.

Lemma sort_Float64s_unique s s' : Sorted Z.le s' -> s' ≡ₚ s -> s' = sort_Float64s s.
Proof.
  intros Hs Hp. apply (Sorted_unique Z.le); [exact Hs|apply sort_Float64s_sorted|].
  rewrite Hp. symmetry. apply sort_Float64s_perm.
Qed.

Lemma sort_Reverse_sorted s : Sorted (flip Z.le) (sort_Reverse_Float64s s).
Proof. apply Sorted_merge_sort; apply _. Qed.

Lemma sort_Reverse_perm s : sort_Reverse_Float64s s ≡ₚ s.
Proof. apply merge_sort_Permutation. Qed.

Lemma sort_Reverse_unique s s' :
  Sorted (flip Z.le) s' -> s' ≡ₚ s -> s' = sort_Reverse_Float64s s.
Proof.
  intros Hs Hp. apply (Sorted_unique (flip Z.le)); [exact Hs|apply sort_Reverse_sorted|].
  rewrite Hp. symmetry. apply sort_Reverse_perm.
Qed.

(** ** The sample window *)

Import RecentLeaderSlots.

Lemma trim_drop s : trim s = drop (length s - 12) s.
Proof.
  induction s as [|x s IH]; [reflexivity|].
  cbn [trim]. destruct (Z.ltb_spec 12 (Z.of_nat (length (x :: s)))) as [H|H];
    cbn [length] in H.
  - rewrite IH. replace (length (x :: s) - 12)%nat with (S (length s - 12)) by (cbn [length]; lia).
    reflexivity.
  - replace (length (x :: s) - 12)%nat with 0%nat by (cbn [length]; lia). reflexivity.
Qed.

Lemma RecordSlot_lastn r slot :
  RecentSlots (RecordSlot r slot) = lastn 12 (RecentSlots r ++ [float64_of_uint64 slot]).
Proof. unfold RecordSlot, lastn. cbn [RecentSlots]. apply trim_drop. Qed.

Lemma lastn_length {A} n (l : list A) : (length (lastn n l) <= n)%nat.
Proof. unfold lastn. rewrite length_drop. lia. Qed.

Lemma lastn_lastn_app {A} n (l k : list A) : lastn n (lastn n l ++ k) = lastn n (l ++ k).
Proof.
  unfold lastn. rewrite !length_app, length_drop, !drop_app, drop_drop, length_drop.
  f_equal; f_equal; lia.
Qed.

Lemma lastn_all {A} n (l : list A) : (length l <= n)%nat -> lastn n l = l.
Proof. intros H. unfold lastn. replace (length l - n)%nat with 0%nat by lia. reflexivity. Qed.

Lemma foldl_RecordSlot r slots :
  (length (RecentSlots r) <= 12)%nat ->
  RecentSlots (foldl RecordSlot r slots)
  = lastn 12 (RecentSlots r ++ map float64_of_uint64 slots).
Proof.
  revert r. induction slots as [|slot slots IH]; intros r Hr.
  - cbn [foldl map]. rewrite app_nil_r, lastn_all; [reflexivity|exact Hr].
  - cbn [foldl map]. rewrite IH.
    + rewrite RecordSlot_lastn, lastn_lastn_app, <- app_assoc. reflexivity.
    + rewrite RecordSlot_lastn. apply lastn_length.
Qed.

(** ** Picking the slot to return *)

Lemma foldl_max_props a l :
  a <= foldl Z.max a l /\ Forall (fun x => x <= foldl Z.max a l) l /\
  (foldl Z.max a l = a \/ foldl Z.max a l ∈ l).
Proof.
  revert a. induction l as [|x l IH]; intros a; cbn [foldl].
  - split; [lia|]. split; [constructor|left; reflexivity].
  - destruct (IH (Z.max a x)) as (H1 & H2 & H3).
    split; [lia|]. split; [constructor; [lia|exact H2]|].
    destruct H3 as [H3|H3].
    + rewrite H3. destruct (Z.max_spec a x) as [[_ ->]|[_ ->]].
      * right. constructor.
      * left. reflexivity.
    + right. constructor. exact H3.
Qed.

Lemma foldl_max_le a l l' : l ≡ₚ l' -> foldl Z.max a l <= foldl Z.max a l'.
Proof.
  intros Hp.
  destruct (foldl_max_props a l) as (_ & _ & [H|H]);
    destruct (foldl_max_props a l') as (Ha & Hall & _).
  - rewrite H. exact Ha.
  - rewrite Forall_forall in Hall. apply Hall. rewrite <- Hp. exact H.
Qed.

Lemma foldl_max_perm a l l' : l ≡ₚ l' -> foldl Z.max a l = foldl Z.max a l'.
Proof.
  intros Hp. apply Z.le_antisymm; apply foldl_max_le; [exact Hp|symmetry; exact Hp].
Qed.

Lemma pick_foldl cap l acc :
  Forall sample_in_range l ->
  pick cap l acc = foldl Z.max acc (filter (fun s => s <= cap) l).
Proof.
  intros Hl. revert acc. induction Hl as [|x l Hx Hl IH]; intros acc; [reflexivity|].
  cbn [pick]. rewrite uint64_of_float64_exact by exact Hx.
  rewrite filter_cons. destruct (decide (x <= cap)) as [Hc|Hc].
  - destruct (Z.leb_spec x cap); [|lia]. cbn [andb foldl].
    destruct (Z.ltb_spec acc x); rewrite IH; f_equal; lia.
  - destruct (Z.leb_spec x cap); [lia|]. cbn [andb]. apply IH.
Qed.


Lemma spec_maximum_foldl l :
  Forall (fun s => 0 <= s) l -> default 0 (spec_maximum l) = foldl Z.max 0 l.
Proof.
  intros Hl. destruct Hl as [|x l Hx Hl]; [reflexivity|].
  cbv beta in Hx. cbn [spec_maximum default foldl]. unfold id. f_equal. lia.
Qed.

Lemma median_index n :
  (1 <= n)%nat ->
  Z.to_nat ((Z.of_nat n - 1) ÷ 2) = ((n - 1) / 2)%nat /\
  (Z.of_nat n - 1) - (Z.of_nat n - 1) ÷ 2 = Z.of_nat (n - 1 - (n - 1) / 2).
Proof.
  intros Hn. rewrite Z.quot_div_nonneg by lia.
  replace (Z.of_nat n - 1) with (Z.of_nat (n - 1)) by lia.
  change 2 with (Z.of_nat 2). rewrite <- Nat2Z.inj_div, Nat2Z.id.
  split; [reflexivity|].
  assert ((n - 1) / 2 <= n - 1)%nat by (apply Nat.Div0.div_le_upper_bound; lia).
  lia.
Qed.

(** ** Well-formed windows *)

Lemma sample_ok_in_range s : sample_ok s -> sample_in_range s.
Proof. unfold sample_ok, sample_in_range. lia. Qed.

Lemma window_ok_empty : window_ok (RecentSlots empty).
Proof. split; [cbn; lia|constructor]. Qed.

Lemma window_ok_Load slot :
  0 <= slot < 2 ^ 64 - 1024 -> window_ok (RecentSlots (Load empty slot)).
Proof.
  intros H. split; [cbn; lia|]. cbn. constructor; [|constructor].
  apply float64_of_uint64_range. exact H.
Qed.

Lemma window_ok_RecordSlot r slot :
  Forall sample_ok (RecentSlots r) -> 0 <= slot < 2 ^ 64 - 1024 ->
  window_ok (RecentSlots (RecordSlot r slot)).
Proof.
  intros Hr Hs. rewrite RecordSlot_lastn. split; [apply lastn_length|].
  unfold lastn. apply Forall_drop. apply Forall_app. split; [exact Hr|].
  constructor; [|constructor]. apply float64_of_uint64_range. exact Hs.
Qed.

Lemma EstimatedCurrentSlot_window r :
  RecentSlots (snd (EstimatedCurrentSlot r)) ≡ₚ RecentSlots r.
Proof.
  unfold EstimatedCurrentSlot. destruct (RecentSlots r) as [|x w] eqn:E.
  - cbn [snd]. rewrite E. reflexivity.
  - cbn [snd RecentSlots]. rewrite sort_Reverse_perm. apply sort_Float64s_perm.
Qed.

Lemma window_ok_EstimatedCurrentSlot r :
  window_ok (RecentSlots r) -> window_ok (RecentSlots (snd (EstimatedCurrentSlot r))).
Proof.
  intros [Hlen Hall]. pose proof (EstimatedCurrentSlot_window r) as Hp.
  split.
  - rewrite (Permutation_length Hp). exact Hlen.
  - rewrite Hp. exact Hall.
Qed.

(** ** The estimate *)

Lemma EstimatedCurrentSlot_spec r :
  RecentSlots r <> [] -> window_ok (RecentSlots r) ->
  fst (EstimatedCurrentSlot r) = spec_estimate (RecentSlots r).
Proof.
  intros Hne [Hlen Hall]. unfold EstimatedCurrentSlot, spec_estimate.
  destruct (RecentSlots r) as [|x w] eqn:E; [congruence|].
  set (l := x :: w) in *. cbn [fst].
  pose proof (sort_Float64s_perm l) as Hp.
  pose proof (Permutation_length Hp) as Hplen.
  unfold sort_Float64s in *. set (sorted := merge_sort Z.le l) in *.
  assert (Hn : (1 <= length l)%nat) by (unfold l; cbn [length]; lia).
  destruct (median_index (length l) Hn) as [Hmi Hrest].
  rewrite Hplen, Hmi, Hrest.
  set (mi := ((length l - 1) / 2)%nat) in *.
  assert (Hmilt : (mi < length sorted)%nat).
  { rewrite Hplen. unfold mi.
    assert ((length l - 1) / 2 <= length l - 1)%nat
      by (apply Nat.Div0.div_le_upper_bound; lia).
    lia. }
  destruct (lookup_lt_is_Some_2 sorted mi Hmilt) as [m Hm].
  rewrite nth_lookup, Hm. cbn [default]. unfold id.
  assert (Hmok : sample_ok m).
  { eapply Forall_lookup_1; [|exact Hm]. rewrite Hp. exact Hall. }
  unfold sample_ok in Hmok.
  rewrite uint64_of_float64_exact by lia.
  rewrite (u64_small (Z.of_nat _)) by lia.
  rewrite (u64_small (m + _)) by lia.
  unfold MAX_SLOT_SKIP_DISTANCE. rewrite u64_small by lia.
  set (cap := m + Z.of_nat (length l - 1 - mi) + 48).
  rewrite pick_foldl.
  - rewrite spec_maximum_foldl.
    + apply foldl_max_perm. rewrite sort_Reverse_perm, Hp. reflexivity.
    + apply Forall_forall. intros s [_ Hs]%list_elem_of_filter.
      rewrite Forall_forall in Hall. specialize (Hall s Hs). unfold sample_ok in Hall. lia.
  - rewrite sort_Reverse_perm, Hp. eapply Forall_impl; [exact Hall|].
    apply sample_ok_in_range.
Qed.

Lemma window_built_ok r : window_built r -> window_ok (RecentSlots r) /\ RecentSlots r <> [].
Proof.
  induction 1 as [slot Hs|r slot _ [[_ IH] _] Hs|r _ [IH Hne]].
  - split; [apply window_ok_Load; exact Hs|]. cbn. discriminate.
  - split; [apply window_ok_RecordSlot; assumption|].
    rewrite RecordSlot_lastn. unfold lastn. intros Hnil.
    apply (f_equal (@length Z)) in Hnil. rewrite length_drop, length_app in Hnil.
    cbn [length] in Hnil. lia.
  - split; [apply window_ok_EstimatedCurrentSlot; exact IH|].
    intros Hnil. apply Hne. apply Permutation_nil_r.
    rewrite <- Hnil. symmetry. apply EstimatedCurrentSlot_window.
Qed.

(** On every window that the service can reach the estimate is the one of
    the design document. *)
Lemma EstimatedCurrentSlot_spec_built r :
  window_built r -> fst (EstimatedCurrentSlot r) = spec_estimate (RecentSlots r).
Proof.
  intros H. destruct (window_built_ok r H) as [Hok Hne].
  apply EstimatedCurrentSlot_spec; assumption.
Qed.

(** [spec_maximum] is the maximum. *)
Lemma spec_maximum_spec l m :
  spec_maximum l = Some m -> m ∈ l /\ Forall (fun x => x <= m) l.
Proof.
  destruct l as [|x l]; [discriminate|]. cbn [spec_maximum]. intros [= <-].
  destruct (foldl_max_props x l) as (Hx & Hall & Hm). split.
  - destruct Hm as [->|Hm]; [constructor|constructor; exact Hm].
  - constructor; [exact Hx|exact Hall].
Qed.





Lemma RecordSlot_length r slot : (length (RecentSlots (RecordSlot r slot)) <= 12)%nat.
Proof. rewrite RecordSlot_lastn. apply lastn_length. Qed.

Lemma RecordSlot_full r slot :
  length (RecentSlots r) = 12%nat ->
  RecentSlots (RecordSlot r slot) = tail (RecentSlots r) ++ [float64_of_uint64 slot].
Proof.
  intros Hlen. rewrite RecordSlot_lastn. unfold lastn. rewrite length_app, Hlen.
  destruct (RecentSlots r) as [|x w]; [discriminate|]. reflexivity.
Qed.

(** C7. Whatever slots are recorded, in whatever number, the window holds
    at most 12 samples, and they are the last 12 recorded, in the order of
    their recording; on a full window a recording drops the oldest sample
    and appends the new one. *)
Theorem RecordSlot_window_fifo (r : RecentLeaderSlots.t) (slots : list Z) :
  (length (RecentSlots r) <= 12)%nat ->
  (length (RecentSlots (foldl RecordSlot r slots)) <= 12)%nat /\
  RecentSlots (foldl RecordSlot r slots)
  = lastn 12 (RecentSlots r ++ map float64_of_uint64 slots) /\
  (length (RecentSlots r) = 12%nat ->
   forall slot, RecentSlots (RecordSlot r slot)
                = tail (RecentSlots r) ++ [float64_of_uint64 slot]).
Proof.
  intros Hlen. split; [|split].
  - rewrite foldl_RecordSlot by exact Hlen. apply lastn_length.
  - apply foldl_RecordSlot. exact Hlen.
  - intros Hfull slot. apply RecordSlot_full. exact Hfull.
Qed.

Lemma RecordSlot_window_fifo_witness :
  RecentSlots (foldl RecordSlot empty [1; 2; 3; 4; 5; 6; 7; 8; 9; 10; 11; 12; 13; 14])
  = [3; 4; 5; 6; 7; 8; 9; 10; 11; 12; 13; 14].
Proof.
  assert (Hlen : (length (RecentSlots empty) <= 12)%nat) by (cbn; lia).
  rewrite (proj1 (proj2 (RecordSlot_window_fifo empty
                           [1; 2; 3; 4; 5; 6; 7; 8; 9; 10; 11; 12; 13; 14] Hlen))).
  reflexivity.
Defined.

(** C8. [EstimatedCurrentSlot] rewrites the window of its receiver: on a
    non-empty window it leaves the same samples in descending order.  On a
    full window the next [RecordSlot] therefore drops the largest sample,
    not the one that arrived first: after the slots 1 to 12 were recorded
    in that order and an estimate was taken, recording 13 drops 12 and
    keeps 1. *)
Theorem EstimatedCurrentSlot_reorders_window :
  (forall r : RecentLeaderSlots.t,
     RecentSlots r <> [] ->
     let r' := snd (EstimatedCurrentSlot r) in
     Sorted (flip Z.le) (RecentSlots r') /\
     RecentSlots r' ≡ₚ RecentSlots r /\
     (length (RecentSlots r) = 12%nat ->
      forall slot, exists largest rest,
        RecentSlots r' = largest :: rest /\
        Forall (fun s => s <= largest) (RecentSlots r) /\
        RecentSlots (RecordSlot r' slot) = rest ++ [float64_of_uint64 slot])) /\
  (let r := foldl RecordSlot empty [1; 2; 3; 4; 5; 6; 7; 8; 9; 10; 11; 12] in
   RecentSlots r = [1; 2; 3; 4; 5; 6; 7; 8; 9; 10; 11; 12] /\
   RecentSlots (RecordSlot (snd (EstimatedCurrentSlot r)) 13)
   = [11; 10; 9; 8; 7; 6; 5; 4; 3; 2; 1; 13]).
Proof.
  split; [|vm_compute; split; reflexivity].
  intros r Hne r'. pose proof (EstimatedCurrentSlot_window r) as Hp. fold r' in Hp.
  assert (Hs : Sorted (flip Z.le) (RecentSlots r')).
  { unfold r', EstimatedCurrentSlot. destruct (RecentSlots r) as [|x w] eqn:E; [congruence|].
    cbn [snd RecentSlots]. apply sort_Reverse_sorted. }
  split; [exact Hs|]. split; [exact Hp|].
  intros Hfull slot.
  pose proof (Permutation_length Hp) as Hlen. rewrite Hfull in Hlen.
  destruct (RecentSlots r') as [|largest rest] eqn:E'; [discriminate|].
  exists largest, rest. split; [reflexivity|]. split.
  - rewrite <- Hp. apply Sorted_StronglySorted in Hs; [|apply _].
    apply StronglySorted_inv in Hs as [_ Hs].
    constructor; [lia|]. eapply Forall_impl; [exact Hs|]. unfold flip. intros; lia.
  - rewrite RecordSlot_full by (rewrite E'; exact Hlen). rewrite E'. reflexivity.
Qed.

Lemma EstimatedCurrentSlot_reorders_window_witness :
  exists largest rest,
    RecentSlots (snd (EstimatedCurrentSlot
                        {| RecentSlots := [4; 1; 7; 2; 9; 3; 8; 5; 12; 6; 11; 10] |}))
    = largest :: rest /\
    Forall (fun s => s <= largest) [4; 1; 7; 2; 9; 3; 8; 5; 12; 6; 11; 10] /\
    RecentSlots (RecordSlot
                   (snd (EstimatedCurrentSlot
                           {| RecentSlots := [4; 1; 7; 2; 9; 3; 8; 5; 12; 6; 11; 10] |})) 13)
    = rest ++ [float64_of_uint64 13].
Proof.
  apply (proj2 (proj2 (proj1 EstimatedCurrentSlot_reorders_window
                         {| RecentSlots := [4; 1; 7; 2; 9; 3; 8; 5; 12; 6; 11; 10] |}
                         ltac:(discriminate)))).
  reflexivity.
Defined.

(** ** The leader schedule cache *)

Import LeaderTPUCache.

Lemma fanout_window_spec slotsInEpoch :
  0 <= slotsInEpoch < 2 ^ 64 -> fanout_window slotsInEpoch = Z.min 200 slotsInEpoch.
Proof.
  intros H. unfold fanout_window, math_Min, MAX_FANOUT_SLOTS.
  change (float64_of_uint64 (u64 (2 * 100))) with 200.
  destruct (Z.lt_ge_cases slotsInEpoch (2 ^ 53)) as [Hs|Hl].
  - rewrite float64_of_uint64_exact by exact Hs.
    apply uint64_of_float64_exact. lia.
  - pose proof (float64_of_uint64_large slotsInEpoch ltac:(lia)).
    rewrite Z.min_l by lia. rewrite Z.min_l by lia. reflexivity.
Qed.

(** *** First-seen order *)

Lemma fresh_first_seen seen l :
  fresh seen l = filter (fun y => y ∉ seen) (first_seen l).
Proof.
  revert seen. induction l as [|x l IH]; intros seen; [reflexivity|].
  cbn [fresh first_seen]. rewrite filter_cons, list_filter_filter.
  destruct (decide (x ∈ seen)) as [Hin|Hin].
  - rewrite decide_False by (intros Hn; exact (Hn Hin)).
    rewrite IH. apply list_filter_iff. intros y. split; [|tauto].
    intros Hy. split; [exact Hy|]. intros ->. exact (Hy Hin).
  - rewrite decide_True by exact Hin. f_equal.
    rewrite IH. apply list_filter_iff. intros y.
    rewrite elem_of_app, list_elem_of_singleton. tauto.
Qed.

Lemma fresh_nil l : fresh [] l = first_seen l.
Proof.
  rewrite fresh_first_seen. induction (first_seen l) as [|x k IH]; [reflexivity|].
  rewrite filter_cons, decide_True by (apply not_elem_of_nil). f_equal. exact IH.
Qed.

Lemma first_seen_elem_of x l : x ∈ first_seen l <-> x ∈ l.
Proof.
  induction l as [|y l IH]; [reflexivity|].
  cbn [first_seen]. rewrite !elem_of_cons, list_elem_of_filter, IH.
  destruct (decide (x = y)); tauto.
Qed.

Lemma first_seen_NoDup l : NoDup (first_seen l).
Proof.
  induction l as [|y l IH]; [constructor|].
  cbn [first_seen]. constructor.
  - rewrite list_elem_of_filter. tauto.
  - apply NoDup_filter. exact IH.
Qed.

Lemma first_seen_length l : (length (first_seen l) <= length l)%nat.
Proof.
  induction l as [|y l IH]; [reflexivity|].
  cbn [first_seen length]. pose proof (length_filter (fun z => z <> y) (first_seen l)). lia.
Qed.

(** *** The scanning loop *)

Lemma examined_step fanoutSlots c len :
  c + 1 <> fanoutSlots ->
  examined fanoutSlots c (S len) = S (examined fanoutSlots (c + 1) len).
Proof.
  intros Hne. unfold examined.
  destruct (Z.ltb_spec c fanoutSlots); destruct (Z.ltb_spec (c + 1) fanoutSlots); lia.
Qed.

Lemma examined_stop fanoutSlots c len :
  c + 1 = fanoutSlots -> examined fanoutSlots c (S len) = 1%nat.
Proof.
  intros He. unfold examined. destruct (Z.ltb_spec c fanoutSlots); [|lia].
  replace (fanoutSlots - c) with 1 by lia. reflexivity.
Qed.

Lemma GetLeaderSockets_loop_spec m fanoutSlots leaders already c :
  0 <= c -> fanoutSlots < 2 ^ 64 ->
  (fanoutSlots <= c -> c + Z.of_nat (length leaders) < 2 ^ 64) ->
  GetLeaderSockets_loop m fanoutSlots leaders already (map (map_get m) already) c
  = map (map_get m)
      (already ++ fresh already
         (filter (fun leader => map_get m leader <> "")
            (take (examined fanoutSlots c (length leaders)) leaders))).
Proof.
  revert already c. induction leaders as [|x l IH]; intros already c Hc Hk Hwrap.
  - cbn. unfold examined. destruct (c <? fanoutSlots); cbn;
      rewrite ?Nat.min_0_r; cbn; rewrite app_nil_r; reflexivity.
  - cbn [GetLeaderSockets_loop]. unfold PublicKey_String, CheckIfDuplicate.
    assert (Hc1 : u64 (c + 1) = c + 1).
    { apply u64_small. cbn [length] in Hwrap. lia. }
    rewrite Hc1.
    assert (Hbranch :
      (if negb (String.eqb (map_get m x) "") then
         if negb (bool_decide (x ∈ already)) then
           (already ++ [x], map (map_get m) already ++ [map_get m x])
         else (already, map (map_get m) already)
       else (already, map (map_get m) already))
      = (already ++ fresh already (filter (fun leader => map_get m leader <> "") [x]),
         map (map_get m)
           (already ++ fresh already (filter (fun leader => map_get m leader <> "") [x])))).
    { rewrite filter_cons, filter_nil.
      destruct (String.eqb_spec (map_get m x) "") as [He|He]; cbn [negb].
      - rewrite decide_False by (intros Hn; exact (Hn He)). cbn. rewrite app_nil_r. reflexivity.
      - rewrite decide_True by exact He. cbn [fresh].
        destruct (decide (x ∈ already)) as [Hin|Hin].
        + rewrite bool_decide_eq_true_2 by exact Hin.
          cbn. rewrite app_nil_r. reflexivity.
        + rewrite bool_decide_eq_false_2 by exact Hin. cbn [negb].
          rewrite map_app. reflexivity. }
    rewrite Hbranch. clear Hbranch.
    destruct (Z.eqb_spec (c + 1) fanoutSlots) as [He|Hne].
    + cbn [length]. rewrite examined_stop by exact He. reflexivity.
    + cbn [length]. rewrite examined_step by exact Hne. cbn [take].
      rewrite IH; [|lia|exact Hk|cbn [length] in Hwrap; lia].
      f_equal. rewrite (filter_cons _ x []), (filter_cons _ x (take _ _)), filter_nil.
      destruct (decide (map_get m x <> "")) as [Hx|Hx]; cbn [fresh].
      * destruct (decide (x ∈ already)) as [Hin|Hin].
        -- rewrite app_nil_r. reflexivity.
        -- rewrite <- app_assoc. reflexivity.
      * rewrite app_nil_r. reflexivity.
Qed.

Lemma GetLeaderSockets_examined c fanoutSlots :
  fanoutSlots < 2 ^ 64 ->
  (fanoutSlots <= 0 -> Z.of_nat (length (Leaders c)) < 2 ^ 64) ->
  GetLeaderSockets c fanoutSlots
  = spec_sockets (LeaderTPUMap c) (take (examined fanoutSlots 0 (length (Leaders c))) (Leaders c)).
Proof.
  intros Hk Hwrap. unfold GetLeaderSockets, spec_sockets, spec_leaders.
  pose proof (GetLeaderSockets_loop_spec (LeaderTPUMap c) fanoutSlots (Leaders c) [] 0) as H.
  cbn [map] in H. rewrite H; [|lia|exact Hk|lia].
  rewrite app_nil_l, fresh_nil. reflexivity.
Qed.

Lemma GetLeaderSocketsConverted_loop_map {UDPAddr} (resolve : string -> option UDPAddr)
    m fanoutSlots leaders already sockets c :
  GetLeaderSocketsConverted_loop resolve m fanoutSlots leaders already (map resolve sockets) c
  = map resolve (GetLeaderSockets_loop m fanoutSlots leaders already sockets c).
Proof.
  revert already sockets c. induction leaders as [|x l IH]; intros already sockets c;
    [reflexivity|].
  cbn [GetLeaderSocketsConverted_loop GetLeaderSockets_loop].
  destruct (negb (String.eqb (map_get m (PublicKey_String x)) ""));
    [destruct (negb (CheckIfDuplicate already (PublicKey_String x)))|].
  - replace (map resolve sockets ++ [resolve (map_get m (PublicKey_String x))])
      with (map resolve (sockets ++ [map_get m (PublicKey_String x)]))
      by (rewrite map_app; reflexivity).
    destruct (u64 (c + 1) =? fanoutSlots); [reflexivity|apply IH].
  - destruct (u64 (c + 1) =? fanoutSlots); [reflexivity|apply IH].
  - destruct (u64 (c + 1) =? fanoutSlots); [reflexivity|apply IH].
Qed.

Lemma GetLeaderSocketsConverted_map {UDPAddr} (resolve : string -> option UDPAddr) c fanoutSlots :
  GetLeaderSocketsConverted resolve c fanoutSlots = map resolve (GetLeaderSockets c fanoutSlots).
Proof.
  unfold GetLeaderSocketsConverted, GetLeaderSockets.
  apply (GetLeaderSocketsConverted_loop_map resolve _ _ _ [] [] 0).
Qed.

Lemma take_min_length {A} n (l : list A) : take (Nat.min n (length l)) l = take n l.
Proof.
  destruct (Nat.le_gt_cases n (length l)) as [H|H].
  - rewrite Nat.min_l by exact H. reflexivity.
  - rewrite Nat.min_r by lia. rewrite firstn_all. symmetry. apply take_ge. lia.
Qed.

Lemma GetLeaderSockets_positive c fanoutSlots :
  1 <= fanoutSlots < 2 ^ 64 ->
  GetLeaderSockets c fanoutSlots
  = spec_sockets (LeaderTPUMap c) (take (Z.to_nat fanoutSlots) (Leaders c)).
Proof.
  intros H. rewrite GetLeaderSockets_examined by lia.
  unfold examined. destruct (Z.ltb_spec 0 fanoutSlots); [|lia].
  rewrite Z.sub_0_r, take_min_length. reflexivity.
Qed.

Lemma GetLeaderSockets_zero c :
  Z.of_nat (length (Leaders c)) < 2 ^ 64 ->
  GetLeaderSockets c 0 = spec_sockets (LeaderTPUMap c) (Leaders c).
Proof.
  intros H. rewrite GetLeaderSockets_examined by lia.
  unfold examined. cbn. rewrite firstn_all. reflexivity.
Qed.

Lemma spec_leaders_elem_of m l id :
  id ∈ spec_leaders m l <-> id ∈ l /\ map_get m id <> "".
Proof. unfold spec_leaders. rewrite first_seen_elem_of, list_elem_of_filter. tauto. Qed.

Lemma spec_sockets_length m l : (length (spec_sockets m l) <= length l)%nat.
Proof.
  unfold spec_sockets, spec_leaders. rewrite length_map.
  etransitivity; [apply first_seen_length|apply length_filter].
Qed.

(** C3, as the code has it.  For a fan-out of at least 1,
    [GetLeaderSockets] looks at the first [fanoutSlots] positions of the
    window and at nothing else: it returns the addresses of the leaders
    found there that have one, each leader once, in the order in which the
    leaders first occur.  So there are at most [fanoutSlots] addresses, and
    fewer when leaders repeat: on the window A, A, B with addresses for A
    and B a fan-out of 3 gives addr1, addr2 and a fan-out of 2 gives addr1
    alone. *)
Theorem GetLeaderSockets_walk :
  (forall (c : LeaderTPUCache.t) (fanoutSlots : Z),
     1 <= fanoutSlots < 2 ^ 64 ->
     let scanned := take (Z.to_nat fanoutSlots) (Leaders c) in
     let ids := spec_leaders (LeaderTPUMap c) scanned in
     GetLeaderSockets c fanoutSlots = map (map_get (LeaderTPUMap c)) ids /\
     NoDup ids /\
     (forall id, id ∈ ids <-> id ∈ scanned /\ map_get (LeaderTPUMap c) id <> "") /\
     (length (GetLeaderSockets c fanoutSlots) <= Z.to_nat fanoutSlots)%nat) /\
  GetLeaderSockets cache_example 3 = ["addr1"; "addr2"] /\
  GetLeaderSockets cache_example 2 = ["addr1"].
Proof.
  split; [|split; vm_compute; reflexivity].
  intros c fanoutSlots Hk scanned ids.
  pose proof (GetLeaderSockets_positive c fanoutSlots Hk) as Heq.
  split; [exact Heq|]. split; [apply first_seen_NoDup|].
  split; [intros id; apply spec_leaders_elem_of|].
  rewrite Heq. etransitivity; [apply spec_sockets_length|].
  rewrite length_take. lia.
Qed.

Lemma GetLeaderSockets_walk_witness :
  GetLeaderSockets cache_example 3
  = map (map_get (LeaderTPUMap cache_example))
      (spec_leaders (LeaderTPUMap cache_example) (take (Z.to_nat 3) (Leaders cache_example))).
Proof.
  apply (proj1 GetLeaderSockets_walk cache_example 3). lia.
Defined.

(** C3 as worded fails for a fan-out of 0: no position should be examined,
    yet both addresses of the window A, A, B are returned. *)
Lemma GetLeaderSockets_zero_examines_all :
  spec_sockets (LeaderTPUMap cache_example) (take (Z.to_nat 0) (Leaders cache_example)) = [] /\
  GetLeaderSockets cache_example 0 = ["addr1"; "addr2"].
Proof. split; vm_compute; reflexivity. Qed.

(** C10. With a fan-out of 0 the counter never equals the fan-out after its
    increment, so [GetLeaderSockets] and [GetLeaderSocketsConverted] walk
    the whole window and return the address of every leader that has one,
    each leader once; only for a fan-out of at least 1 is the walk limited
    to the first [fanoutSlots] positions. *)
Theorem GetLeaderSockets_zero_fanout {UDPAddr : Type} (resolve : string -> option UDPAddr)
    (c : LeaderTPUCache.t) :
  Z.of_nat (length (Leaders c)) < 2 ^ 64 ->
  GetLeaderSockets c 0 = spec_sockets (LeaderTPUMap c) (Leaders c) /\
  GetLeaderSocketsConverted resolve c 0
  = map resolve (spec_sockets (LeaderTPUMap c) (Leaders c)) /\
  (forall fanoutSlots, 1 <= fanoutSlots < 2 ^ 64 ->
     GetLeaderSockets c fanoutSlots
     = spec_sockets (LeaderTPUMap c) (take (Z.to_nat fanoutSlots) (Leaders c)) /\
     GetLeaderSocketsConverted resolve c fanoutSlots
     = map resolve (spec_sockets (LeaderTPUMap c) (take (Z.to_nat fanoutSlots) (Leaders c)))).
Proof.
  intros Hlen. split; [apply GetLeaderSockets_zero; exact Hlen|]. split.
  - rewrite GetLeaderSocketsConverted_map, GetLeaderSockets_zero by exact Hlen. reflexivity.
  - intros k Hk. rewrite GetLeaderSocketsConverted_map, GetLeaderSockets_positive by exact Hk.
    split; reflexivity.
Qed.

Lemma GetLeaderSockets_zero_fanout_witness :
  GetLeaderSockets cache_example 0 = ["addr1"; "addr2"] /\
  GetLeaderSocketsConverted Some cache_example 0 = [Some "addr1"; Some "addr2"] /\
  GetLeaderSockets cache_example 1 = ["addr1"].
Proof.
  assert (Hlen : Z.of_nat (length (Leaders cache_example)) < 2 ^ 64) by (cbn; lia).
  pose proof (GetLeaderSockets_zero_fanout (@Some string) cache_example Hlen) as (H0 & H0c & Hk).
  destruct (Hk 1 ltac:(lia)) as [H1 _].
  split; [|split].
  - rewrite H0. vm_compute. reflexivity.
  - rewrite H0c. vm_compute. reflexivity.
  - rewrite H1. vm_compute. reflexivity.
Defined.

(** *** Loading the cache *)

Lemma Load_total c connection startSlot :
  exists err c', Load c connection startSlot = Some (err, c').
Proof.
  unfold Load, FetchSlotLeaders, FetchClusterTPUSockets. cbn.
  destruct (GetEpochInfo connection CommitmentProcessed); cbn; [|eauto].
  destruct (GetSlotLeaders connection startSlot _); cbn; [|eauto].
  destruct (GetClusterNodes connection); cbn; eauto.
Qed.

Lemma Load_FirstSlot c connection startSlot err c' :
  Load c connection startSlot = Some (err, c') -> FirstSlot c' = FirstSlot c.
Proof.
  unfold Load, FetchSlotLeaders, FetchClusterTPUSockets. cbn.
  destruct (GetEpochInfo connection CommitmentProcessed); cbn; [|intros [= <- <-]; reflexivity].
  destruct (GetSlotLeaders connection startSlot _); cbn; [|intros [= <- <-]; reflexivity].
  destruct (GetClusterNodes connection); cbn; intros [= <- <-]; reflexivity.
Qed.

(** A successful [Load] stores the epoch length and the leaders that the
    query interface returned for the window asked for, min(200,
    slotsInEpoch) slots from [startSlot]; with an interface that returns
    as many leaders as asked, that is the length of the window. *)
Lemma Load_success c connection startSlot c' :
  Load c connection startSlot = Some (None, c') ->
  exists epochInfo slotLeaders,
    GetEpochInfo connection CommitmentProcessed = Ok epochInfo /\
    GetSlotLeaders connection startSlot (fanout_window (EpochInfo_SlotsInEpoch epochInfo))
    = Ok slotLeaders /\
    SlotsInEpoch c' = EpochInfo_SlotsInEpoch epochInfo /\
    Leaders c' = slotLeaders.
Proof.
  unfold Load, FetchSlotLeaders, FetchClusterTPUSockets. cbn.
  destruct (GetEpochInfo connection CommitmentProcessed) as [info|]; cbn; [|discriminate].
  destruct (GetSlotLeaders connection startSlot _) as [ls|] eqn:E; cbn; [|discriminate].
  destruct (GetClusterNodes connection); cbn; [|discriminate].
  intros [= <-]. exists info, ls. cbn. auto.
Qed.

(** [Load] returns the error of the first query that fails. *)
Lemma Load_failure c connection startSlot e :
  (GetEpochInfo connection CommitmentProcessed = Err e \/
   (exists epochInfo,
      GetEpochInfo connection CommitmentProcessed = Ok epochInfo /\
      (GetSlotLeaders connection startSlot (fanout_window (EpochInfo_SlotsInEpoch epochInfo))
       = Err e \/
       (exists slotLeaders,
          GetSlotLeaders connection startSlot (fanout_window (EpochInfo_SlotsInEpoch epochInfo))
          = Ok slotLeaders /\
          GetClusterNodes connection = Err e)))) ->
  exists c', Load c connection startSlot = Some (Some e, c').
Proof.
  unfold Load, FetchSlotLeaders, FetchClusterTPUSockets. cbn.
  intros [H|(info & Hi & [H|(ls & Hl & H)])].
  - rewrite H. eauto.
  - rewrite Hi. cbn. rewrite H. cbn. eauto.
  - rewrite Hi. cbn. rewrite Hl. cbn. rewrite H. eauto.
Qed.

(** C2.  [Load] stores the leaders fetched from [startSlot] but never
    assigns [FirstSlot]: loading a new cache at slot 1000 gives a window of
    200 leaders with [FirstSlot] still 0, so [LastSlot] is 199 and not
    1000 + 200 - 1.  [Run] does assign [FirstSlot] next to [Leaders] when it
    fetches the window again: after its first tick [LastSlot] is 1199. *)
Theorem Load_does_not_anchor_window :
  (exists c',
     LeaderTPUCache.Load LeaderTPUCache.zero rpc_example 1000 = Some (None, c') /\
     length (Leaders c') = 200%nat /\ FirstSlot c' = 0 /\ LastSlot c' = 199) /\
  (exists s s' c',
     LeaderTPUService.Load LeaderTPUService.zero rpc_example ws_example "" 12 = Some (None, s) /\
     LeaderTPUService.Run_leaders s 12 = Some (false, s') /\
     LeaderTPUService.LTPUCache s' = Some c' /\
     length (Leaders c') = 200%nat /\ FirstSlot c' = 1000 /\ LastSlot c' = 1199).
Proof.
  split.
  - eexists. split; [vm_compute; reflexivity|]. split; [|split]; vm_compute; reflexivity.
  - eexists. eexists. eexists. split; [vm_compute; reflexivity|].
    split; [vm_compute; reflexivity|]. split; [reflexivity|].
    split; [|split]; vm_compute; reflexivity.
Qed.

(** ** The client *)

Lemma clamp_fanout_spec configured :
  0 <= configured < 2 ^ 64 ->
  TPUClient.clamp_fanout configured = Z.max 1 (Z.min configured MAX_FANOUT_SLOTS).
Proof.
  intros H. unfold TPUClient.clamp_fanout, math_Max, math_Min, MAX_FANOUT_SLOTS.
  change (float64_of_uint64 100) with 100.
  destruct (Z.lt_ge_cases configured (2 ^ 53)) as [Hs|Hl].
  - rewrite float64_of_uint64_exact by exact Hs.
    rewrite uint64_of_float64_exact by lia. lia.
  - pose proof (float64_of_uint64_large configured ltac:(lia)).
    rewrite (Z.min_r (float64_of_uint64 configured)) by lia.
    rewrite (Z.min_r configured) by lia. reflexivity.
Qed.

Lemma LeaderTPUService_Load_total s connection ws websocketURL fanout :
  exists err s', LeaderTPUService.Load s connection ws websocketURL fanout = Some (err, s').
Proof.
  unfold LeaderTPUService.Load.
  destruct (GetSlot connection CommitmentProcessed) as [slot|]; [|eauto].
  destruct (Load_total zero connection slot) as (err & c' & ->). cbn.
  destruct err; [eauto|].
  destruct (negb (String.eqb websocketURL "")); [|eauto].
  destruct (ws_Connect ws websocketURL) as [wsConnection|]; [|eauto].
  destruct (SlotsUpdatesSubscribe wsConnection); eauto.
Qed.

Lemma TPUClient_Load_FanoutSlots c connection ws websocketURL config :
  exists err c',
    TPUClient.Load c connection ws websocketURL config = Some (err, c') /\
    TPUClient.FanoutSlots c' = TPUClient.clamp_fanout (Config_FanoutSlots config).
Proof.
  unfold TPUClient.Load.
  destruct (LeaderTPUService_Load_total LeaderTPUService.zero connection ws websocketURL
              (TPUClient.clamp_fanout (Config_FanoutSlots config))) as (err & s' & ->).
  cbn. eauto.
Qed.

(** C5, as the code has it.  Whatever the outcome of start-up, the fan-out
    of the client is the configured value clamped to 1..100; a configured
    value of 0 gives 1. *)
Theorem TPUClient_Load_clamps_fanout (c : TPUClient.t) (connection : rpc_Client)
    (ws : ws_Env) (websocketURL : string) (config : TPUClientConfig) :
  0 <= Config_FanoutSlots config < 2 ^ 64 ->
  exists err c',
    TPUClient.Load c connection ws websocketURL config = Some (err, c') /\
    TPUClient.FanoutSlots c' = Z.max 1 (Z.min (Config_FanoutSlots config) MAX_FANOUT_SLOTS) /\
    1 <= TPUClient.FanoutSlots c' <= MAX_FANOUT_SLOTS /\
    (Config_FanoutSlots config = 0 -> TPUClient.FanoutSlots c' = 1).
Proof.
  intros H.
  destruct (TPUClient_Load_FanoutSlots c connection ws websocketURL config)
    as (err & c' & HL & HF).
  exists err, c'. split; [exact HL|].
  rewrite clamp_fanout_spec in HF by exact H. rewrite HF.
  unfold MAX_FANOUT_SLOTS. split; [reflexivity|]. split; [lia|]. intros ->. reflexivity.
Qed.

Lemma TPUClient_Load_clamps_fanout_witness :
  exists err c',
    TPUClient.Load TPUClient.zero rpc_example ws_example "" {| Config_FanoutSlots := 500 |}
    = Some (err, c') /\
    TPUClient.FanoutSlots c' = 100.
Proof.
  destruct (TPUClient_Load_clamps_fanout TPUClient.zero rpc_example ws_example ""
              {| Config_FanoutSlots := 500 |}) as (err & c' & HL & HF & _).
  - cbn. lia.
  - exists err, c'. split; [exact HL|]. rewrite HF. reflexivity.
Defined.

(** C5 as worded fails for an unset fan-out: the client then works with a
    fan-out of 1, not with [DEFAULT_FANOUT_SLOTS]. *)
Lemma TPUClient_Load_ignores_default :
  exists c',
    TPUClient.Load TPUClient.zero rpc_example ws_example "" {| Config_FanoutSlots := 0 |}
    = Some (None, c') /\
    TPUClient.FanoutSlots c' = 1 /\
    TPUClient.FanoutSlots c' <> DEFAULT_FANOUT_SLOTS.
Proof.
  eexists. split; [vm_compute; reflexivity|]. split; [reflexivity|]. discriminate.
Qed.

(** ** The fan-out sender *)

Lemma int_add a b : int (int a + b) = int (a + b).
Proof.
  unfold int. f_equal.
  replace ((a + 2 ^ 63) mod 2 ^ 64 - 2 ^ 63 + b + 2 ^ 63) with ((a + 2 ^ 63) mod 2 ^ 64 + b) by lia.
  rewrite Z.add_mod_idemp_l by lia. f_equal. lia.
Qed.

Lemma int_zero n : 0 <= n < 2 ^ 64 -> (int n = 0 <-> n = 0).
Proof.
  intros H. unfold int. split; [|intros ->; reflexivity].
  intros Hn.
  pose proof (Z.div_mod (n + 2 ^ 63) (2 ^ 64) ltac:(lia)) as Hdm.
  pose proof (Z.mod_pos_bound (n + 2 ^ 63) (2 ^ 64) ltac:(lia)) as Hb.
  assert ((n + 2 ^ 63) / 2 ^ 64 = 0 \/ (n + 2 ^ 63) / 2 ^ 64 = 1) as [Hq|Hq].
  { assert (0 <= (n + 2 ^ 63) / 2 ^ 64) by (apply Z.div_pos; lia).
    assert ((n + 2 ^ 63) / 2 ^ 64 < 2) by (apply Z.div_lt_upper_bound; lia).
    lia. }
  - rewrite Hq in Hdm. lia.
  - rewrite Hq in Hdm. lia.
Qed.

Lemma record_errors_app e evs1 evs2 :
  record_errors e (evs1 ++ evs2) = record_errors (record_errors e evs1) evs2.
Proof. apply foldl_app. Qed.

Lemma count_successes_app evs1 evs2 :
  count_successes (evs1 ++ evs2) = count_successes evs1 + count_successes evs2.
Proof. induction evs1 as [|ev evs1 IH]; cbn [count_successes app]; lia. Qed.

Lemma count_successes_failed_dials leader texts :
  count_successes (failed_dials leader texts) = 0.
Proof. induction texts as [|t texts IH]; cbn; [reflexivity|exact IH]. Qed.


Lemma count_successes_elem_of evs :
  0 < count_successes evs <->
  exists leader transaction, EvWrite leader transaction None ∈ evs.
Proof.
  induction evs as [|ev evs IH].
  - cbn. split; [lia|]. intros (l & t & H). apply elem_of_nil in H. contradiction.
  - cbn [count_successes].
    assert (Hnn : 0 <= count_successes evs).
    { clear. induction evs as [|ev evs IH]; cbn [count_successes]; [lia|].
      destruct (write_succeeded ev); lia. }
    split.
    + intros Hpos. destruct (write_succeeded ev) eqn:E.
      * destruct ev as [| l t [|] |]; try discriminate. exists l, t. constructor.
      * destruct IH as [IH _]. destruct IH as (l & t & H); [lia|].
        exists l, t. constructor. exact H.
    + intros (l & t & H). apply elem_of_cons in H as [<-|H].
      * cbn. lia.
      * assert (0 < count_successes evs) by (apply IH; eauto).
        destruct (write_succeeded ev); lia.
Qed.

Lemma dial_spec net leader n h e :
  exists texts,
    (TPUClient.dial net leader n h e
     = (false, h ++ failed_dials leader texts ++ [EvDial leader None],
        record_errors e (failed_dials leader texts)) /\
     (length texts <= n)%nat) \/
    (TPUClient.dial net leader n h e
     = (true, h ++ failed_dials leader texts, record_errors e (failed_dials leader texts)) /\
     length texts = S n).
Proof.
  revert h e. induction n as [|n IH]; intros h e; cbn [TPUClient.dial].
  - destruct (net_Dial net h leader) as [t|].
    + exists [t]. right. split; reflexivity.
    + exists []. left. split; [reflexivity|cbn; lia].
  - destruct (net_Dial net h leader) as [t|].
    + destruct (IH (h ++ [EvDial leader (Some t)]) t) as (texts & [[-> Hl]|[-> Hl]]).
      * exists (t :: texts). left. rewrite <- app_assoc. split; [reflexivity|cbn; lia].
      * exists (t :: texts). right. rewrite <- app_assoc. split; [reflexivity|cbn; lia].
    + exists []. left. split; [reflexivity|cbn; lia].
Qed.

Lemma write_spec net transaction leader n h e :
  exists outcomes,
    length outcomes = n /\
    forall s k, s = int k ->
      TPUClient.write net transaction leader n h s e
      = (h ++ map (EvWrite leader transaction) outcomes,
         int (k + count_successes (map (EvWrite leader transaction) outcomes)),
         record_errors e (map (EvWrite leader transaction) outcomes)).
Proof.
  revert h e. induction n as [|n IH]; intros h e.
  - exists []. split; [reflexivity|]. intros s k ->. cbn. rewrite app_nil_r, Z.add_0_r.
    reflexivity.
  - destruct (conn_Write net h leader transaction) as [t|] eqn:E.
    + destruct (IH (h ++ [EvWrite leader transaction (Some t)]) t) as (outcomes & Hl & Hw).
      exists (Some t :: outcomes). split; [cbn; lia|]. intros s k ->.
      cbn [TPUClient.write]. rewrite E. rewrite (Hw _ k eq_refl), <- app_assoc. reflexivity.
    + destruct (IH (h ++ [EvWrite leader transaction None]) e) as (outcomes & Hl & Hw).
      exists (None :: outcomes). split; [cbn; lia|]. intros s k ->.
      cbn [TPUClient.write]. rewrite E. rewrite (Hw _ (k + 1)) by (apply int_add).
      rewrite <- app_assoc. cbn [map count_successes write_succeeded app].
      f_equal. f_equal. f_equal. lia.
Qed.

Lemma triple_eq {A B C} (a a' : A) (b b' : B) (c c' : C) :
  a = a' -> b = b' -> c = c' -> (a, b, c) = (a', b', c').
Proof. congruence. Qed.

Lemma send_spec net transaction amount leaderTPUSockets h e :
  exists traces,
    Forall2 (leader_trace transaction amount) leaderTPUSockets traces /\
    forall s k, s = int k ->
      TPUClient.send net transaction amount leaderTPUSockets h s e
      = (h ++ concat traces, int (k + count_successes (concat traces)),
         record_errors e (concat traces)).
Proof.
  revert h e. induction leaderTPUSockets as [|leader rest IH]; intros h e.
  - exists []. split; [constructor|]. intros s k ->. cbn.
    rewrite app_nil_r, Z.add_0_r. reflexivity.
  - destruct (dial_spec net leader 3 h e) as (texts & [[Hd Hl]|[Hd Hl]]).
    + destruct (write_spec net transaction leader (Z.to_nat amount)
                  (h ++ failed_dials leader texts ++ [EvDial leader None])
                  (record_errors e (failed_dials leader texts)))
        as (outcomes & Hlo & Hw).
      set (writes := map (EvWrite leader transaction) outcomes) in *.
      destruct (IH ((h ++ failed_dials leader texts ++ [EvDial leader None]) ++ writes
                    ++ [EvClose leader])
                  (record_errors (record_errors e (failed_dials leader texts)) writes))
        as (traces & HF & Hs).
      exists ((failed_dials leader texts ++ [EvDial leader None] ++ writes ++ [EvClose leader])
              :: traces).
      split; [constructor; [constructor; assumption|exact HF]|].
      intros s k ->. cbn [TPUClient.send]. rewrite Hd.
      rewrite (Hw _ k eq_refl).
      rewrite <- (app_assoc _ writes [EvClose leader]).
      rewrite (Hs _ (k + count_successes writes) eq_refl).
      cbn [concat]. rewrite !count_successes_app, !record_errors_app.
      rewrite count_successes_failed_dials. cbn [count_successes write_succeeded].
      apply triple_eq.
      * rewrite <- !app_assoc. reflexivity.
      * f_equal. lia.
      * reflexivity.
    + destruct (IH (h ++ failed_dials leader texts) (record_errors e (failed_dials leader texts)))
        as (traces & HF & Hs).
      exists (failed_dials leader texts :: traces).
      split; [constructor; [constructor; exact Hl|exact HF]|].
      intros s k ->. cbn [TPUClient.send]. rewrite Hd.
      rewrite (Hs _ k eq_refl).
      cbn [concat]. rewrite count_successes_app, record_errors_app.
      rewrite count_successes_failed_dials, <- app_assoc. reflexivity.
Qed.



Lemma SendRawTransaction_spec net transaction c s cache amount :
  TPUClient.LTPUService c = Some s ->
  LeaderTPUService.LTPUCache s = Some cache ->
  exists traces,
    Forall2 (leader_trace transaction amount)
      (GetLeaderSockets cache (TPUClient.FanoutSlots c)) traces /\
    TPUClient.SendRawTransaction net transaction c amount
    = Some (if int (count_successes (concat traces)) =? 0
            then Some (record_errors "" (concat traces)) else None,
            concat traces).
Proof.
  intros Hs Hc. unfold TPUClient.SendRawTransaction, LeaderTPUService.LeaderTPUSockets.
  rewrite Hs. cbn. rewrite Hc. cbn.
  destruct (send_spec net transaction amount
              (GetLeaderSockets cache (TPUClient.FanoutSlots c)) [] "") as (traces & HF & Hsend).
  exists traces. split; [exact HF|].
  rewrite (Hsend 0 0 eq_refl). rewrite Z.add_0_l. cbn [app].
  destruct (int (count_successes (concat traces)) =? 0); reflexivity.
Qed.



(** One destination that accepts a write is enough: addr1 fails four
    dials, addr2 takes both writes, and the send succeeds. *)
Example SendRawTransaction_one_destination_suffices :
  TPUClient.SendRawTransaction net_addr1_down [Byte.x01] client_example 2
  = Some (None,
          [ EvDial "addr1" (Some "dial udp: no route to host");
            EvDial "addr1" (Some "dial udp: no route to host");
            EvDial "addr1" (Some "dial udp: no route to host");
            EvDial "addr1" (Some "dial udp: no route to host");
            EvDial "addr2" None;
            EvWrite "addr2" [Byte.x01] None;
            EvWrite "addr2" [Byte.x01] None;
            EvClose "addr2" ]).
Proof. vm_compute. reflexivity. Qed.

Lemma count_successes_nonneg evs : 0 <= count_successes evs.
Proof.
  induction evs as [|ev evs IH]; cbn [count_successes]; [lia|].
  destruct (write_succeeded ev); lia.
Qed.

Lemma failed_dials_no_write leader texts l p r : EvWrite l p r ∉ failed_dials leader texts.
Proof.
  induction texts as [|t texts IH]; cbn; [apply not_elem_of_nil|].
  rewrite not_elem_of_cons. split; [discriminate|exact IH].
Qed.

Lemma traces_no_writes transaction amount leaders traces :
  Forall2 (leader_trace transaction amount) leaders traces ->
  amount <= 0 ->
  forall l p r, EvWrite l p r ∉ concat traces.
Proof.
  intros HF Ha l p r. induction HF as [|leader trace leaders traces Ht _ IH].
  - apply not_elem_of_nil.
  - cbn [concat]. rewrite elem_of_app. intros [Hin|Hin]; [|exact (IH Hin)].
    destruct Ht as [texts outcomes Hl Ho|texts Hl].
    + replace (Z.to_nat amount) with 0%nat in Ho by lia.
      destruct outcomes; [|discriminate]. cbn [map app] in Hin.
      rewrite elem_of_app, elem_of_cons, list_elem_of_singleton in Hin.
      destruct Hin as [Hin|[Hin|Hin]]; try discriminate.
      exact (failed_dials_no_write _ _ _ _ _ Hin).
    + exact (failed_dials_no_write _ _ _ _ _ Hin).
Qed.

Lemma record_errors_none e evs :
  (forall ev, ev ∈ evs -> event_error ev = None) -> record_errors e evs = e.
Proof.
  revert e. induction evs as [|ev evs IH]; intros e H; [reflexivity|].
  cbn. rewrite (H ev) by constructor. cbn. apply IH.
  intros ev' Hin. apply H. constructor. exact Hin.
Qed.

(** C9, as the code has it.  When no address is resolved, or [amount] is
    not positive, nothing is written and [SendRawTransaction] returns an
    error.  Its text is that of the last failed dial; it is empty when no
    dial failed, and so whenever no address is resolved. *)
Theorem SendRawTransaction_nothing_written (net : Net) (transaction : list Byte.byte)
    (c : TPUClient.t) (s : LeaderTPUService.t) (cache : LeaderTPUCache.t) (amount : Z) :
  TPUClient.LTPUService c = Some s ->
  LeaderTPUService.LTPUCache s = Some cache ->
  GetLeaderSockets cache (TPUClient.FanoutSlots c) = [] \/ amount <= 0 ->
  exists text h,
    TPUClient.SendRawTransaction net transaction c amount = Some (Some text, h) /\
    (forall leader payload r, EvWrite leader payload r ∉ h) /\
    text = record_errors "" h /\
    ((forall leader t, EvDial leader (Some t) ∉ h) -> text = "") /\
    (GetLeaderSockets cache (TPUClient.FanoutSlots c) = [] -> h = [] /\ text = "").
Proof.
  intros Hs Hc Hcase.
  destruct (SendRawTransaction_spec net transaction c s cache amount Hs Hc)
    as (traces & HF & Hsend).
  assert (Hnw : forall l p r, EvWrite l p r ∉ concat traces).
  { destruct Hcase as [Hnil|Ha].
    - rewrite Hnil in HF. inversion HF; subst. intros l p r. apply not_elem_of_nil.
    - exact (traces_no_writes _ _ _ _ HF Ha). }
  assert (Hzero : count_successes (concat traces) = 0).
  { pose proof (count_successes_nonneg (concat traces)).
    pose proof (count_successes_elem_of (concat traces)) as [Hex _].
    destruct (Z.eq_dec (count_successes (concat traces)) 0) as [|Hne]; [assumption|].
    destruct Hex as (l & p & Hin); [lia|]. exfalso. exact (Hnw _ _ _ Hin). }
  rewrite Hzero in Hsend. change (int 0 =? 0) with true in Hsend.
  exists (record_errors "" (concat traces)), (concat traces).
  split; [exact Hsend|]. split; [exact Hnw|]. split; [reflexivity|]. split.
  - intros Hnd. apply record_errors_none. intros ev Hin.
    destruct ev as [l [t|]|l p r|l]; try reflexivity.
    + exfalso. exact (Hnd _ _ Hin).
    + exfalso. exact (Hnw _ _ _ Hin).
  - intros Hnil. rewrite Hnil in HF. inversion HF; subst. split; reflexivity.
Qed.

Lemma SendRawTransaction_nothing_written_witness :
  exists text h,
    TPUClient.SendRawTransaction net_addr1_down [Byte.x01] client_example 0
    = Some (Some text, h) /\
    text = record_errors "" h.
Proof.
  destruct (SendRawTransaction_nothing_written net_addr1_down [Byte.x01] client_example _
              cache_example 0 eq_refl eq_refl) as (text & h & Hsend & _ & Htext & _).
  - right. lia.
  - exists text, h. split; [exact Hsend|exact Htext].
Defined.

(** C9 as worded fails when a dial fails: with an [amount] of 0 on a
    network whose first dial fails, the error carries the text of that
    failure, not the empty string. *)
Lemma SendRawTransaction_zero_amount_dial_error :
  TPUClient.SendRawTransaction net_first_dial_fails [Byte.x01] client_example 0
  = Some (Some "dial udp: i/o timeout",
          [ EvDial "addr1" (Some "dial udp: i/o timeout");
            EvDial "addr1" None;
            EvClose "addr1";
            EvDial "addr2" None;
            EvClose "addr2" ]) /\
  "dial udp: i/o timeout" <> "".
Proof. split; [vm_compute; reflexivity|discriminate]. Qed.

(** * Further properties of the code *)

(** ** The estimator *)

Lemma EstimatedCurrentSlot_perm r r' :
  RecentSlots r ≡ₚ RecentSlots r' -> EstimatedCurrentSlot r = EstimatedCurrentSlot r'.
Proof.
  destruct r as [w], r' as [w']. cbn [RecentSlots]. intros Hp.
  unfold EstimatedCurrentSlot. cbn [RecentSlots].
  destruct w as [|x w].
  - apply Permutation_nil in Hp. subst w'. reflexivity.
  - destruct w' as [|x' w'].
    + symmetry in Hp. apply Permutation_nil in Hp. discriminate.
    + assert (Hs : sort_Float64s (x :: w) = sort_Float64s (x' :: w')).
      { apply sort_Float64s_unique; [apply sort_Float64s_sorted|].
        rewrite sort_Float64s_perm. exact Hp. }
      rewrite Hs. reflexivity.
Qed.

(** X1. The estimate depends on the samples of the window only, not on
    their order: windows that are permutations of each other give the same
    slot and are left in the same state.  So a second estimate, taken on
    the window that the first one reordered, returns the same slot and
    changes nothing. *)
Theorem EstimatedCurrentSlot_order_independent :
  (forall r r' : RecentLeaderSlots.t,
     RecentSlots r ≡ₚ RecentSlots r' -> EstimatedCurrentSlot r = EstimatedCurrentSlot r') /\
  (forall r : RecentLeaderSlots.t,
     EstimatedCurrentSlot (snd (EstimatedCurrentSlot r)) = EstimatedCurrentSlot r).
Proof.
  split; [exact EstimatedCurrentSlot_perm|].
  intros r. apply EstimatedCurrentSlot_perm. apply EstimatedCurrentSlot_window.
Qed.

Lemma EstimatedCurrentSlot_order_independent_witness :
  EstimatedCurrentSlot {| RecentSlots := [100; 102; 101; 1000] |}
  = EstimatedCurrentSlot {| RecentSlots := [1000; 101; 100; 102] |}.
Proof.
  apply (proj1 EstimatedCurrentSlot_order_independent). cbn [RecentSlots].
  change [100; 102; 101; 1000] with ([100; 102; 101] ++ [1000]).
  rewrite <- Permutation_cons_append. apply perm_skip.
  change [101; 100; 102] with ([101] ++ [100; 102]).
  rewrite <- Permutation_middle. apply perm_skip. apply perm_swap.
Defined.

Lemma median_in_window w :
  w <> [] ->
  nth ((length w - 1) / 2) (sort_Float64s w) 0 ∈ w.
Proof.
  intros Hne. pose proof (sort_Float64s_perm w) as Hp.
  pose proof (Permutation_length Hp) as Hlen.
  assert (Hn : (1 <= length w)%nat) by (destruct w; [congruence|cbn; lia]).
  assert (Hlt : ((length w - 1) / 2 < length (sort_Float64s w))%nat).
  { rewrite Hlen.
    assert ((length w - 1) / 2 <= length w - 1)%nat
      by (apply Nat.Div0.div_le_upper_bound; lia).
    lia. }
  destruct (lookup_lt_is_Some_2 _ _ Hlt) as [m Hm].
  rewrite nth_lookup, Hm. cbn. rewrite <- Hp. eapply list_elem_of_lookup_2. exact Hm.
Qed.

Lemma EstimatedCurrentSlot_between r :
  RecentSlots r <> [] -> window_ok (RecentSlots r) ->
  let n := length (RecentSlots r) in
  let medianIndex := ((n - 1) / 2)%nat in
  let median := nth medianIndex (sort_Float64s (RecentSlots r)) 0 in
  let cap := median + Z.of_nat (n - 1 - medianIndex) + MAX_SLOT_SKIP_DISTANCE in
  fst (EstimatedCurrentSlot r) ∈ RecentSlots r /\
  median <= fst (EstimatedCurrentSlot r) <= cap /\
  (forall s, s ∈ RecentSlots r -> s <= cap -> s <= fst (EstimatedCurrentSlot r)).
Proof.
  intros Hne Hok n medianIndex median cap.
  rewrite (EstimatedCurrentSlot_spec r Hne Hok). unfold spec_estimate.
  fold n. fold medianIndex. unfold sort_Float64s in median. fold median. fold cap.
  pose proof (median_in_window (RecentSlots r) Hne) as Hmed.
  fold n in Hmed. fold medianIndex in Hmed. unfold sort_Float64s in Hmed. fold median in Hmed.
  assert (Hmf : median ∈ filter (fun s => s <= cap) (RecentSlots r)).
  { apply list_elem_of_filter. split; [|exact Hmed]. unfold cap, MAX_SLOT_SKIP_DISTANCE. lia. }
  destruct (spec_maximum (filter (fun s => s <= cap) (RecentSlots r))) as [m|] eqn:E.
  - destruct (spec_maximum_spec _ _ E) as [Hin Hall].
    apply list_elem_of_filter in Hin as [Hcap Hin]. rewrite Forall_forall in Hall.
    cbn [default]. unfold id. split; [exact Hin|]. split.
    + split; [apply Hall; exact Hmf|exact Hcap].
    + intros s Hs Hsc. apply Hall. apply list_elem_of_filter. split; assumption.
  - destruct (filter (fun s => s <= cap) (RecentSlots r)); [|discriminate].
    apply elem_of_nil in Hmf. contradiction.
Qed.

(** X2. On a non-empty window of samples that convert back to [uint64] the
    estimate is always one of the samples, never the fallback 0: it is at
    least the median and at most the median plus the slots behind it plus
    48, and no sample under that cap is larger.  A far-away sample cannot
    raise it above the cap. *)
Theorem EstimatedCurrentSlot_bounds (r : RecentLeaderSlots.t) :
  RecentSlots r <> [] -> window_ok (RecentSlots r) ->
  let n := length (RecentSlots r) in
  let medianIndex := ((n - 1) / 2)%nat in
  let median := nth medianIndex (sort_Float64s (RecentSlots r)) 0 in
  let cap := median + Z.of_nat (n - 1 - medianIndex) + MAX_SLOT_SKIP_DISTANCE in
  fst (EstimatedCurrentSlot r) ∈ RecentSlots r /\
  median <= fst (EstimatedCurrentSlot r) <= cap /\
  (forall s, s ∈ RecentSlots r -> s <= cap -> s <= fst (EstimatedCurrentSlot r)).
Proof. exact (EstimatedCurrentSlot_between r). Qed.

Lemma EstimatedCurrentSlot_bounds_witness :
  fst (EstimatedCurrentSlot {| RecentSlots := [100; 102; 101; 1000] |}) ∈ [100; 102; 101; 1000] /\
  101 <= fst (EstimatedCurrentSlot {| RecentSlots := [100; 102; 101; 1000] |}) <= 151.
Proof.
  assert (Hok : window_ok [100; 102; 101; 1000]).
  { split; [cbn; lia|]. repeat constructor; unfold sample_ok; lia. }
  destruct (EstimatedCurrentSlot_bounds {| RecentSlots := [100; 102; 101; 1000] |}
              ltac:(discriminate) Hok) as (Hin & Hb & _).
  split; [exact Hin|exact Hb].
Defined.

(** X3. When no two samples of the window are more than 48 slots apart the
    estimate is simply the largest sample. *)
Theorem EstimatedCurrentSlot_tight_window (r : RecentLeaderSlots.t) :
  RecentSlots r <> [] -> window_ok (RecentSlots r) ->
  (forall a b, a ∈ RecentSlots r -> b ∈ RecentSlots r -> a <= b + MAX_SLOT_SKIP_DISTANCE) ->
  fst (EstimatedCurrentSlot r) ∈ RecentSlots r /\
  (forall s, s ∈ RecentSlots r -> s <= fst (EstimatedCurrentSlot r)).
Proof.
  intros Hne Hok Htight.
  destruct (EstimatedCurrentSlot_between r Hne Hok) as (Hin & _ & Hmax).
  split; [exact Hin|]. intros s Hs. apply Hmax; [exact Hs|].
  pose proof (Htight s _ Hs (median_in_window _ Hne)). lia.
Qed.

Lemma EstimatedCurrentSlot_tight_window_witness :
  1040 <= fst (EstimatedCurrentSlot {| RecentSlots := [1003; 1000; 1040; 1001] |}).
Proof.
  apply (EstimatedCurrentSlot_tight_window {| RecentSlots := [1003; 1000; 1040; 1001] |}).
  - discriminate.
  - split; [cbn; lia|]. repeat constructor; unfold sample_ok; lia.
  - cbn [RecentSlots]. unfold MAX_SLOT_SKIP_DISTANCE. intros a b Ha Hb.
    repeat (apply elem_of_cons in Ha as [->|Ha]);
      repeat (apply elem_of_cons in Hb as [->|Hb]);
      try lia; try (apply elem_of_nil in Ha; contradiction);
      try (apply elem_of_nil in Hb; contradiction).
  - cbn [RecentSlots]. do 2 constructor. constructor.
Defined.

(** X4. [RecordSlot] needs no well-formed window: whatever the size of the
    window it is given (several [Load]s can make it larger than 12), it
    returns at most 12 samples, drops samples from the front only, and
    only as many as exceed 12, and always keeps the slot just recorded as
    the last sample. *)
Theorem RecordSlot_any_window (r : RecentLeaderSlots.t) (slot : Z) :
  exists evicted,
    RecentSlots r ++ [float64_of_uint64 slot] = evicted ++ RecentSlots (RecordSlot r slot) /\
    length evicted = (length (RecentSlots r) + 1 - 12)%nat /\
    (length (RecentSlots (RecordSlot r slot)) <= 12)%nat /\
    last (RecentSlots (RecordSlot r slot)) = Some (float64_of_uint64 slot).
Proof.
  rewrite RecordSlot_lastn. unfold lastn. rewrite length_app. cbn [length].
  set (w := RecentSlots r). set (f := float64_of_uint64 slot).
  set (k := (length w + 1 - 12)%nat).
  exists (take k (w ++ [f])). split; [symmetry; apply take_drop|].
  split; [rewrite length_take, length_app; cbn [length]; lia|].
  split; [rewrite length_drop, length_app; cbn [length]; lia|].
  rewrite drop_app_le by (unfold k; lia). apply last_snoc.
Qed.

(** ** The listener *)

Lemma Listen_recorded recent received :
  LeaderTPUService.Listen recent received
  = match recorded_slot received with
    | Some slot => RecordSlot recent slot
    | None => recent
    end.
Proof.
  destruct received as [[[| |name] slot]|e]; reflexivity.
Qed.

Lemma foldl_Listen recent stream :
  foldl LeaderTPUService.Listen recent stream
  = foldl RecordSlot recent (omap recorded_slot stream).
Proof.
  revert recent. induction stream as [|received stream IH]; intros recent; [reflexivity|].
  cbn [foldl omap list_omap]. rewrite IH, Listen_recorded.
  destruct (recorded_slot received); reflexivity.
Qed.

(** X5. Whatever the subscription delivers, the listener records slot + 1
    for a completed slot (wrapping at 2^64), the slot itself for a first
    shred, and nothing for other events and for receive errors; after any
    stream of deliveries the window holds the last 12 slots so recorded,
    in the order of their arrival. *)
Theorem Listen_stream (recent : RecentLeaderSlots.t) (stream : list (result SlotsUpdatesResult)) :
  (length (RecentSlots recent) <= 12)%nat ->
  RecentSlots (foldl LeaderTPUService.Listen recent stream)
  = lastn 12 (RecentSlots recent
              ++ map float64_of_uint64 (omap recorded_slot stream)).
Proof.
  intros Hlen. rewrite foldl_Listen. apply foldl_RecordSlot. exact Hlen.
Qed.

Lemma Listen_stream_witness :
  RecentSlots
    (foldl LeaderTPUService.Listen (RecentLeaderSlots.Load RecentLeaderSlots.empty 1000)
       [ Ok {| Message_Type := SlotsUpdatesFirstShredReceived; Message_Slot := 1001 |};
         Err "read: connection reset";
         Ok {| Message_Type := SlotsUpdatesOther "frozen"; Message_Slot := 1001 |};
         Ok {| Message_Type := SlotsUpdatesCompleted; Message_Slot := 1001 |} ])
  = [1000; 1001; 1002].
Proof.
  rewrite Listen_stream; [vm_compute; reflexivity|cbn; lia].
Defined.

(** ** The topology table *)

Lemma table_lookup (nodes : list GetClusterNodesResult) (m : gmap string string) k :
  foldl (fun clusterTPUSockets contactInfo =>
           match TPU contactInfo with
           | Some tpu => <[PublicKey_String (Pubkey contactInfo) := tpu]> clusterTPUSockets
           | None => clusterTPUSockets
           end) m nodes !! k
  = match spec_tpu nodes k with
    | Some address => Some address
    | None => m !! k
    end.
Proof.
  revert m. induction nodes as [|node rest IH]; intros m; [reflexivity|].
  cbn [foldl spec_tpu]. rewrite IH.
  destruct (spec_tpu rest k); [reflexivity|].
  destruct (decide (PublicKey_String (Pubkey node) = k)) as [Hk|Hk].
  - destruct (TPU node); [|reflexivity]. rewrite Hk. apply lookup_insert_eq.
  - destruct (TPU node); [|reflexivity]. apply lookup_insert_ne. exact Hk.
Qed.

Lemma spec_tpu_Some nodes k address :
  spec_tpu nodes k = Some address ->
  exists node, node ∈ nodes /\ PublicKey_String (Pubkey node) = k /\ TPU node = Some address.
Proof.
  induction nodes as [|node rest IH]; [discriminate|]. cbn [spec_tpu].
  destruct (spec_tpu rest k) as [a|].
  - intros [= ->]. destruct (IH eq_refl) as (n & Hin & Hk & Ht).
    exists n. split; [constructor; exact Hin|split; assumption].
  - destruct (decide (PublicKey_String (Pubkey node) = k)) as [Hk|Hk]; [|discriminate].
    intros Ht. exists node. split; [constructor|split; assumption].
Qed.

Lemma spec_tpu_None nodes k :
  (forall node, node ∈ nodes -> PublicKey_String (Pubkey node) = k -> TPU node = None) ->
  spec_tpu nodes k = None.
Proof.
  induction nodes as [|node rest IH]; [reflexivity|]. intros H. cbn [spec_tpu].
  rewrite IH by (intros n Hin; apply H; constructor; exact Hin).
  destruct (decide (PublicKey_String (Pubkey node) = k)) as [Hk|Hk]; [|reflexivity].
  apply H; [constructor|exact Hk].
Qed.

(** X6. The table that [FetchClusterTPUSockets] builds maps an identity to
    the address of the last cluster node with that identity that has one.
    So every entry is the address of a listed node, and an identity whose
    nodes all lack an address has no entry.  An error of the query is
    passed on, and a cache without a connection panics. *)
Theorem FetchClusterTPUSockets_table (c : LeaderTPUCache.t) :
  match Connection c with
  | None => FetchClusterTPUSockets c = None
  | Some connection =>
      match GetClusterNodes connection with
      | Err e => FetchClusterTPUSockets c = Some (Err e)
      | Ok nodes =>
          exists table,
            FetchClusterTPUSockets c = Some (Ok table) /\
            (forall identity, table !! identity = spec_tpu nodes identity) /\
            (forall identity address,
               table !! identity = Some address ->
               exists node, node ∈ nodes /\ PublicKey_String (Pubkey node) = identity /\
                            TPU node = Some address) /\
            (forall identity,
               (forall node, node ∈ nodes -> PublicKey_String (Pubkey node) = identity ->
                             TPU node = None) ->
               table !! identity = None)
      end
  end.
Proof.
  unfold FetchClusterTPUSockets. destruct (Connection c) as [connection|]; [|reflexivity].
  cbn. destruct (GetClusterNodes connection) as [nodes|e]; [|reflexivity].
  eexists. split; [reflexivity|].
  assert (Hl : forall identity,
             foldl (fun clusterTPUSockets contactInfo =>
                      match TPU contactInfo with
                      | Some tpu =>
                          <[PublicKey_String (Pubkey contactInfo) := tpu]> clusterTPUSockets
                      | None => clusterTPUSockets
                      end) (∅ : gmap string string) nodes !! identity
             = spec_tpu nodes identity).
  { intros k. rewrite table_lookup. destruct (spec_tpu nodes k); [reflexivity|].
    apply lookup_empty. }
  split; [exact Hl|]. split.
  - intros k a. rewrite Hl. apply spec_tpu_Some.
  - intros k H. rewrite Hl. apply spec_tpu_None. exact H.
Qed.

Lemma FetchClusterTPUSockets_table_witness :
  exists table,
    FetchClusterTPUSockets (set_Connection zero (Some rpc_example)) = Some (Ok table) /\
    table !! "B" = Some "addr2" /\
    table !! "C" = None.
Proof.
  pose proof (FetchClusterTPUSockets_table (set_Connection zero (Some rpc_example))) as H.
  cbn [Connection set_Connection rpc_example GetClusterNodes] in H.
  destruct H as (table & Hf & Hl & _ & Hnone).
  exists table. split; [exact Hf|]. split.
  - rewrite Hl. reflexivity.
  - apply Hnone. intros node Hin Hk.
    repeat (apply elem_of_cons in Hin as [->|Hin]); try discriminate Hk; try reflexivity.
    apply elem_of_nil in Hin. contradiction.
Defined.

Lemma FetchSlotLeaders_min c startSlot slotsInEpoch :
  0 <= slotsInEpoch < 2 ^ 64 ->
  FetchSlotLeaders c startSlot slotsInEpoch
  = match Connection c with
    | Some connection =>
        Some (GetSlotLeaders connection startSlot (Z.min (2 * MAX_FANOUT_SLOTS) slotsInEpoch))
    | None => None
    end.
Proof.
  intros H. unfold FetchSlotLeaders. destruct (Connection c) as [connection|]; [|reflexivity].
  cbn. rewrite fanout_window_spec by exact H. unfold MAX_FANOUT_SLOTS.
  change (2 * 100) with 200.
  destruct (GetSlotLeaders connection startSlot (Z.min 200 slotsInEpoch)); reflexivity.
Qed.

(** X7. For every epoch length that fits a [uint64], [FetchSlotLeaders]
    asks the query interface for exactly min(200, slotsInEpoch) leaders
    from [startSlot] (the detour through [float64] changes nothing) and
    returns its answer or its error as it is; without a connection it
    panics. *)
Theorem FetchSlotLeaders_request (c : LeaderTPUCache.t) (startSlot slotsInEpoch : Z) :
  0 <= slotsInEpoch < 2 ^ 64 ->
  FetchSlotLeaders c startSlot slotsInEpoch
  = match Connection c with
    | Some connection =>
        Some (GetSlotLeaders connection startSlot (Z.min (2 * MAX_FANOUT_SLOTS) slotsInEpoch))
    | None => None
    end.
Proof. exact (FetchSlotLeaders_min c startSlot slotsInEpoch). Qed.

Lemma FetchSlotLeaders_request_witness :
  FetchSlotLeaders (set_Connection zero (Some rpc_example)) 1000 (2 ^ 63 + 1)
  = Some (GetSlotLeaders rpc_example 1000 200).
Proof.
  rewrite FetchSlotLeaders_request by lia. reflexivity.
Defined.

(** ** Loading the cache, continued *)

Lemma Load_cases c connection startSlot :
  exists err c',
    LeaderTPUCache.Load c connection startSlot = Some (err, c') /\
    Connection c' = Some connection /\
    LastEpochInfoSlot c' = LastEpochInfoSlot c /\
    match GetEpochInfo connection CommitmentProcessed with
    | Err e =>
        err = Some e /\ SlotsInEpoch c' = SlotsInEpoch c /\ Leaders c' = Leaders c /\
        LeaderTPUMap c' = LeaderTPUMap c
    | Ok epochInfo =>
        SlotsInEpoch c' = EpochInfo_SlotsInEpoch epochInfo /\
        match GetSlotLeaders connection startSlot
                (fanout_window (EpochInfo_SlotsInEpoch epochInfo)) with
        | Err e => err = Some e /\ Leaders c' = Leaders c /\ LeaderTPUMap c' = LeaderTPUMap c
        | Ok slotLeaders =>
            Leaders c' = slotLeaders /\
            match GetClusterNodes connection with
            | Err e => err = Some e /\ LeaderTPUMap c' = LeaderTPUMap c
            | Ok nodes =>
                err = None /\
                forall identity, LeaderTPUMap c' !! identity = spec_tpu nodes identity
            end
        end
    end.
Proof.
  unfold LeaderTPUCache.Load, FetchSlotLeaders, FetchClusterTPUSockets. cbn.
  destruct (GetEpochInfo connection CommitmentProcessed) as [info|e]; cbn.
  2: { eexists _, _. split; [reflexivity|]. cbn. repeat (split; [reflexivity|]). reflexivity. }
  destruct (GetSlotLeaders connection startSlot _) as [ls|e]; cbn.
  2: { eexists _, _. split; [reflexivity|]. cbn. repeat (split; [reflexivity|]). reflexivity. }
  destruct (GetClusterNodes connection) as [nodes|e]; cbn.
  - eexists _, _. split; [reflexivity|]. cbn. repeat (split; [reflexivity|]).
    intros identity. rewrite table_lookup.
    destruct (spec_tpu nodes identity); [reflexivity|apply lookup_empty].
  - eexists _, _. split; [reflexivity|]. cbn. repeat (split; [reflexivity|]). reflexivity.
Qed.


Lemma map_get_Some m k :
  map_get m k <> "" -> m !! k = Some (map_get m k).
Proof. unfold map_get. destruct (m !! k); cbn; [reflexivity|congruence]. Qed.

(** X9. After a successful [Load], every address that [GetLeaderSockets]
    returns for a fan-out of at least 1 is the non-empty address that one
    of the cluster nodes gave for a leader among the first [fanoutSlots]
    leaders fetched. *)
Theorem Load_then_GetLeaderSockets (c c' : LeaderTPUCache.t) (connection : rpc_Client)
    (startSlot fanoutSlots : Z) (nodes : list GetClusterNodesResult) (address : string) :
  LeaderTPUCache.Load c connection startSlot = Some (None, c') ->
  GetClusterNodes connection = Ok nodes ->
  1 <= fanoutSlots < 2 ^ 64 ->
  address ∈ GetLeaderSockets c' fanoutSlots ->
  address <> "" /\
  exists node,
    node ∈ nodes /\ TPU node = Some address /\
    PublicKey_String (Pubkey node) ∈ take (Z.to_nat fanoutSlots) (Leaders c').
Proof.
  intros HL Hn Hk Hin.
  destruct (Load_cases c connection startSlot) as (err & c'' & HL' & _ & _ & Hcase).
  rewrite HL in HL'. injection HL' as <- <-.
  destruct (GetEpochInfo connection CommitmentProcessed) as [info|e];
    [|destruct Hcase as [? _]; discriminate].
  destruct Hcase as [_ Hcase].
  destruct (GetSlotLeaders connection startSlot _) as [ls|e];
    [|destruct Hcase as [? _]; discriminate].
  destruct Hcase as [_ Hcase]. rewrite Hn in Hcase. destruct Hcase as [_ Htable].
  rewrite GetLeaderSockets_positive in Hin by exact Hk.
  unfold spec_sockets in Hin. apply list_elem_of_fmap in Hin as (id & -> & Hid).
  apply spec_leaders_elem_of in Hid as [Htake Hne].
  split; [exact Hne|].
  pose proof (map_get_Some _ _ Hne) as Hm. rewrite Htable in Hm.
  destruct (spec_tpu_Some _ _ _ Hm) as (node & Hnode & Hkey & Htpu).
  exists node. split; [exact Hnode|]. split; [exact Htpu|]. rewrite Hkey. exact Htake.
Qed.

Lemma Load_then_GetLeaderSockets_witness :
  "addr2" <> "" /\
  exists node,
    node ∈ [ {| Pubkey := "A"; TPU := Some "addr1" |};
             {| Pubkey := "B"; TPU := Some "addr2" |};
             {| Pubkey := "C"; TPU := None |} ] /\
    TPU node = Some "addr2" /\
    PublicKey_String (Pubkey node) ∈ take (Z.to_nat 12) (Leaders loaded_example).
Proof.
  apply (Load_then_GetLeaderSockets zero loaded_example rpc_example 1000 12).
  - vm_compute. reflexivity.
  - reflexivity.
  - lia.
  - assert (H : GetLeaderSockets loaded_example 12 = ["addr1"; "addr2"])
      by (vm_compute; reflexivity).
    rewrite H. do 2 constructor.
Defined.

(** ** Reading the window *)

(** X10. On a non-empty window that ends below 2^64, [LastSlot] is
    [FirstSlot] plus the number of leaders minus 1, and [GetSlotLeader]
    answers exactly for the slots from [FirstSlot] to [LastSlot], with the
    leader at that distance from the start; for an earlier slot it returns
    the zero key and for a later one it panics. *)
Theorem GetSlotLeader_window (zeroKey : PublicKey) (c : LeaderTPUCache.t) (slot : Z) :
  Leaders c <> [] ->
  0 <= FirstSlot c -> FirstSlot c + Z.of_nat (length (Leaders c)) < 2 ^ 64 ->
  0 <= slot < 2 ^ 64 ->
  LastSlot c = FirstSlot c + Z.of_nat (length (Leaders c)) - 1 /\
  (slot < FirstSlot c -> GetSlotLeader zeroKey c slot = Some zeroKey) /\
  (FirstSlot c <= slot <= LastSlot c ->
   exists leader,
     GetSlotLeader zeroKey c slot = Some leader /\
     Leaders c !! Z.to_nat (slot - FirstSlot c) = Some leader) /\
  (LastSlot c < slot -> GetSlotLeader zeroKey c slot = None).
Proof.
  intros Hne H0 Hend Hslot.
  assert (Hlen : (1 <= length (Leaders c))%nat)
    by (destruct (Leaders c); [congruence|cbn; lia]).
  assert (HL : LastSlot c = FirstSlot c + Z.of_nat (length (Leaders c)) - 1).
  { unfold LastSlot. rewrite (u64_small (FirstSlot c + _)) by lia. apply u64_small. lia. }
  split; [exact HL|]. rewrite HL. unfold GetSlotLeader. split; [|split].
  - intros Hlt. destruct (Z.leb_spec (FirstSlot c) slot); [lia|reflexivity].
  - intros Hin. destruct (Z.leb_spec (FirstSlot c) slot); [|lia].
    rewrite u64_small by lia.
    destruct (lookup_lt_is_Some_2 (Leaders c) (Z.to_nat (slot - FirstSlot c))) as [leader Hl];
      [lia|].
    exists leader. split; exact Hl.
  - intros Hgt. destruct (Z.leb_spec (FirstSlot c) slot); [|lia].
    rewrite u64_small by lia. apply lookup_ge_None. lia.
Qed.

Lemma GetSlotLeader_window_witness :
  LastSlot (set_FirstSlot cache_example 1000) = 1002 /\
  GetSlotLeader "" (set_FirstSlot cache_example 1000) 1003 = None.
Proof.
  destruct (GetSlotLeader_window "" (set_FirstSlot cache_example 1000) 1003)
    as (HL & _ & _ & Hafter); cbn; try lia; try discriminate.
  split; [exact HL|]. apply Hafter. rewrite HL. cbn. lia.
Defined.

Lemma first_seen_app a b :
  first_seen (a ++ b) = first_seen a ++ filter (fun y => y ∉ a) (first_seen b).
Proof.
  induction a as [|x a IH].
  - cbn. symmetry. induction (first_seen b) as [|y k IHk]; [reflexivity|].
    rewrite filter_cons, decide_True by (apply not_elem_of_nil). f_equal. exact IHk.
  - cbn [app first_seen]. rewrite IH, filter_app, list_filter_filter. f_equal. f_equal.
    apply list_filter_iff. intros y. rewrite not_elem_of_cons. tauto.
Qed.

Lemma spec_sockets_prefix m a b : spec_sockets m a `prefix_of` spec_sockets m (a ++ b).
Proof.
  unfold spec_sockets, spec_leaders. rewrite filter_app, first_seen_app, map_app.
  eexists. reflexivity.
Qed.

(** X11. Raising the fan-out only appends addresses: for fan-outs of at
    least 1 the result for the smaller is a prefix of the result for the
    larger.  From the length of the window on nothing changes any more,
    and the result is the one that a fan-out of 0 gives. *)
Theorem GetLeaderSockets_monotone (c : LeaderTPUCache.t) (k k' : Z) :
  1 <= k <= k' -> k' < 2 ^ 64 ->
  GetLeaderSockets c k `prefix_of` GetLeaderSockets c k' /\
  (Z.of_nat (length (Leaders c)) <= k -> GetLeaderSockets c k = GetLeaderSockets c 0).
Proof.
  intros Hk Hk'. split.
  - rewrite !GetLeaderSockets_positive by lia.
    rewrite <- (take_drop (Z.to_nat k) (take (Z.to_nat k') (Leaders c))).
    rewrite take_take, Nat.min_l by lia. apply spec_sockets_prefix.
  - intros Hlen. rewrite GetLeaderSockets_positive, GetLeaderSockets_zero by lia.
    rewrite take_ge by lia. reflexivity.
Qed.

Lemma GetLeaderSockets_monotone_witness :
  GetLeaderSockets cache_example 2 `prefix_of` GetLeaderSockets cache_example 3.
Proof.
  apply (GetLeaderSockets_monotone cache_example 2 3); lia.
Defined.

(** ** Start-up of the service *)

Lemma EstimatedCurrentSlot_single slot :
  0 <= slot < 2 ^ 64 - 1024 ->
  fst (EstimatedCurrentSlot (RecentLeaderSlots.Load RecentLeaderSlots.empty slot))
  = float64_of_uint64 slot.
Proof.
  intros Hs.
  destruct (EstimatedCurrentSlot_between
              (RecentLeaderSlots.Load RecentLeaderSlots.empty slot)) as (Hin & _).
  - cbn. discriminate.
  - apply window_ok_Load. exact Hs.
  - cbn [RecentLeaderSlots.Load RecentSlots RecentLeaderSlots.empty app] in Hin.
    apply list_elem_of_singleton in Hin. exact Hin.
Qed.

Lemma LeaderTPUService_Load_cases (s : LeaderTPUService.t) (connection : rpc_Client)
    (ws : ws_Env) (websocketURL : string) (fanout : Z) :
  exists err s',
    LeaderTPUService.Load s connection ws websocketURL fanout = Some (err, s') /\
    match GetSlot connection CommitmentProcessed with
    | Err e =>
        err = Some e /\
        LeaderTPUService.RecentSlots s' = LeaderTPUService.RecentSlots s /\
        LeaderTPUService.LTPUCache s' = LeaderTPUService.LTPUCache s
    | Ok slot =>
        LeaderTPUService.RecentSlots s'
        = Some {| RecentSlots := [float64_of_uint64 slot] |} /\
        (0 <= slot < 2 ^ 64 - 1024 ->
         forall recent, LeaderTPUService.RecentSlots s' = Some recent ->
                        fst (EstimatedCurrentSlot recent) = float64_of_uint64 slot) /\
        exists c',
          LeaderTPUCache.Load LeaderTPUCache.zero connection slot = Some (err, c') /\
          match err with
          | Some _ => LeaderTPUService.LTPUCache s' = LeaderTPUService.LTPUCache s
          | None =>
              LeaderTPUService.LTPUCache s' = Some c' /\
              LeaderTPUService.Connection s'
              = (if streaming ws websocketURL then Some connection else None) /\
              LeaderTPUService.Subscription s'
              = (if streaming ws websocketURL then Some tt
                 else LeaderTPUService.Subscription s)
          end
    end.
Proof.
  unfold LeaderTPUService.Load, streaming.
  destruct (GetSlot connection CommitmentProcessed) as [slot|e].
  2: { eexists _, _. split; [reflexivity|]. cbn. repeat (split; [reflexivity|]). reflexivity. }
  destruct (Load_total zero connection slot) as (cerr & c' & HL). rewrite HL. cbn.
  assert (Hest : 0 <= slot < 2 ^ 64 - 1024 ->
                 forall recent,
                   Some (RecentLeaderSlots.Load RecentLeaderSlots.empty slot) = Some recent ->
                   fst (EstimatedCurrentSlot recent) = float64_of_uint64 slot).
  { intros Hs recent [= <-]. apply EstimatedCurrentSlot_single. exact Hs. }
  destruct cerr as [e|].
  { eexists _, _. split; [reflexivity|]. cbn. split; [reflexivity|]. split; [exact Hest|].
    exists c'. split; reflexivity. }
  destruct (negb (String.eqb websocketURL "")); cbn.
  - destruct (ws_Connect ws websocketURL) as [wsConnection|e].
    + destruct (SlotsUpdatesSubscribe wsConnection) as [[]|e];
        (eexists _, _; split; [reflexivity|]; cbn; split; [reflexivity|];
         split; [exact Hest|]; exists c'; repeat (split; [reflexivity|]); reflexivity).
    + eexists _, _. split; [reflexivity|]. cbn. split; [reflexivity|]. split; [exact Hest|].
      exists c'. repeat (split; [reflexivity|]). reflexivity.
  - eexists _, _. split; [reflexivity|]. cbn. split; [reflexivity|]. split; [exact Hest|].
    exists c'. repeat (split; [reflexivity|]). reflexivity.
Qed.



(** ** The refresh loop *)

Lemma Run_leaders_cases s fanout recent c :
  LeaderTPUService.RecentSlots s = Some recent ->
  LeaderTPUService.LTPUCache s = Some c ->
  let currentSlot := fst (EstimatedCurrentSlot recent) in
  let s1 := LeaderTPUService.set_RecentSlots s (Some (snd (EstimatedCurrentSlot recent))) in
  LeaderTPUService.Run_leaders s fanout
  = if u64 (LastSlot c - fanout) <=? currentSlot then
      match FetchSlotLeaders c currentSlot (SlotsInEpoch c) with
      | None => None
      | Some (Err _) => Some (true, s1)
      | Some (Ok slotLeaders) =>
          Some (false,
                LeaderTPUService.set_LTPUCache s1
                  (Some (set_Leaders (set_FirstSlot c currentSlot) slotLeaders)))
      end
    else Some (false, s1).
Proof.
  intros Hr Hc. unfold LeaderTPUService.Run_leaders. rewrite Hr, Hc. cbn.
  destruct (EstimatedCurrentSlot recent) as [currentSlot recent']. cbn.
  destruct (u64 (LastSlot c - fanout) <=? currentSlot); [|reflexivity].
  destruct (FetchSlotLeaders c currentSlot (SlotsInEpoch c)) as [[ls|e]|]; reflexivity.
Qed.

(** X13. When [Run] fetches the window again and the fetch succeeds, the
    window is anchored at the estimate: [FirstSlot] is the estimated slot,
    the leaders are the ones fetched from it, [LastSlot] is the estimate
    plus their number minus 1, and [GetSlotLeader] answers for each of
    these slots with the leader fetched for it.  The topology table and
    the epoch length are kept. *)
Theorem Run_leaders_anchors_window (zeroKey : PublicKey) (s : LeaderTPUService.t) (fanout : Z)
    (recent : RecentLeaderSlots.t) (c : LeaderTPUCache.t) (connection : rpc_Client)
    (slotLeaders : list PublicKey) :
  LeaderTPUService.RecentSlots s = Some recent ->
  LeaderTPUService.LTPUCache s = Some c ->
  Connection c = Some connection ->
  0 <= SlotsInEpoch c < 2 ^ 64 ->
  u64 (LastSlot c - fanout) <= fst (EstimatedCurrentSlot recent) ->
  GetSlotLeaders connection (fst (EstimatedCurrentSlot recent))
    (Z.min (2 * MAX_FANOUT_SLOTS) (SlotsInEpoch c)) = Ok slotLeaders ->
  slotLeaders <> [] ->
  0 <= fst (EstimatedCurrentSlot recent) ->
  fst (EstimatedCurrentSlot recent) + Z.of_nat (length slotLeaders) < 2 ^ 64 ->
  exists s' c',
    LeaderTPUService.Run_leaders s fanout = Some (false, s') /\
    LeaderTPUService.LTPUCache s' = Some c' /\
    FirstSlot c' = fst (EstimatedCurrentSlot recent) /\
    Leaders c' = slotLeaders /\
    LastSlot c' = fst (EstimatedCurrentSlot recent) + Z.of_nat (length slotLeaders) - 1 /\
    (forall i leader,
       slotLeaders !! i = Some leader ->
       GetSlotLeader zeroKey c' (fst (EstimatedCurrentSlot recent) + Z.of_nat i) = Some leader) /\
    LeaderTPUMap c' = LeaderTPUMap c /\
    SlotsInEpoch c' = SlotsInEpoch c.
Proof.
  intros Hr Hc Hconn Hsie Hdue Hfetch Hne H0 Hend.
  rewrite (Run_leaders_cases s fanout recent c Hr Hc).
  destruct (Z.leb_spec (u64 (LastSlot c - fanout)) (fst (EstimatedCurrentSlot recent)));
    [|lia].
  rewrite FetchSlotLeaders_min by exact Hsie. rewrite Hconn, Hfetch.
  eexists _, _. split; [reflexivity|]. split; [reflexivity|]. cbn.
  split; [reflexivity|]. split; [reflexivity|].
  assert (HL : LastSlot (set_Leaders (set_FirstSlot c (fst (EstimatedCurrentSlot recent)))
                           slotLeaders)
               = fst (EstimatedCurrentSlot recent) + Z.of_nat (length slotLeaders) - 1).
  { unfold LastSlot. cbn.
    assert (1 <= length slotLeaders)%nat by (destruct slotLeaders; [congruence|cbn; lia]).
    rewrite (u64_small (_ + _)) by lia. apply u64_small. lia. }
  split; [exact HL|]. split; [|split; reflexivity].
  intros i leader Hi. unfold GetSlotLeader. cbn.
  destruct (Z.leb_spec (fst (EstimatedCurrentSlot recent))
              (fst (EstimatedCurrentSlot recent) + Z.of_nat i)); [|lia].
  pose proof (lookup_lt_Some _ _ _ Hi).
  rewrite u64_small by lia.
  replace (Z.to_nat (fst (EstimatedCurrentSlot recent) + Z.of_nat i
                     - fst (EstimatedCurrentSlot recent))) with i by lia.
  exact Hi.
Qed.

Lemma Run_leaders_anchors_window_witness :
  exists s' c',
    LeaderTPUService.Run_leaders service_example 12 = Some (false, s') /\
    LeaderTPUService.LTPUCache s' = Some c' /\
    FirstSlot c' = 1000 /\
    LastSlot c' = 1199.
Proof.
  destruct (Run_leaders_anchors_window "" service_example 12
              {| RecentSlots := [1000] |} loaded_example rpc_example
              (map (fun i => leader_of_slot (1000 + Z.of_nat i)) (seq 0 200)))
    as (s' & c' & Hrun & Hc & HF & _ & HL & _).
  - vm_compute. reflexivity.
  - vm_compute. reflexivity.
  - vm_compute. reflexivity.
  - vm_compute. split; [discriminate|reflexivity].
  - vm_compute. discriminate.
  - vm_compute. reflexivity.
  - discriminate.
  - vm_compute. discriminate.
  - vm_compute. reflexivity.
  - exists s', c'. split; [exact Hrun|]. split; [exact Hc|]. split; [exact HF|exact HL].
Defined.




(** X15. The test for a new fetch subtracts on [uint64]: when [LastSlot]
    is smaller than the fan-out the difference wraps around to just below
    2^64, and the window is not fetched again for any estimate under that
    value, however far past the window the estimate is. *)
Theorem Run_leaders_wraps (s : LeaderTPUService.t) (fanout : Z)
    (recent : RecentLeaderSlots.t) (c : LeaderTPUCache.t) :
  LeaderTPUService.RecentSlots s = Some recent ->
  LeaderTPUService.LTPUCache s = Some c ->
  LastSlot c < fanout < 2 ^ 64 ->
  fst (EstimatedCurrentSlot recent) < 2 ^ 64 - (fanout - LastSlot c) ->
  exists s',
    LeaderTPUService.Run_leaders s fanout = Some (false, s') /\
    LeaderTPUService.LTPUCache s' = Some c.
Proof.
  intros Hr Hc Hlt Hest.
  rewrite (Run_leaders_cases s fanout recent c Hr Hc).
  assert (H0 : 0 <= LastSlot c < 2 ^ 64) by (unfold LastSlot, u64; apply Z.mod_pos_bound; lia).
  assert (Hw : u64 (LastSlot c - fanout) = 2 ^ 64 + LastSlot c - fanout).
  { unfold u64. symmetry. apply (Z.mod_unique _ _ (-1)); lia. }
  rewrite Hw.
  destruct (Z.leb_spec (2 ^ 64 + LastSlot c - fanout) (fst (EstimatedCurrentSlot recent)));
    [lia|].
  eexists. split; [reflexivity|]. cbn. exact Hc.
Qed.

Lemma Run_leaders_wraps_witness :
  exists s',
    LeaderTPUService.Run_leaders
      (LeaderTPUService.set_LTPUCache service_example (Some cache_example)) 12
    = Some (false, s') /\
    LeaderTPUService.LTPUCache s' = Some cache_example.
Proof.
  apply (Run_leaders_wraps _ 12 {| RecentSlots := [1000] |} cache_example).
  - vm_compute. reflexivity.
  - reflexivity.
  - vm_compute. split; reflexivity.
  - vm_compute. reflexivity.
Defined.

Lemma int64_small z : - 2 ^ 63 <= z < 2 ^ 63 -> int64 z = z.
Proof. intros H. unfold int64. rewrite Z.mod_small by lia. lia. Qed.


(** X16. When the topology refresh is due and its query fails, the
    iteration of [Run] ends before the sleep and changes nothing but the
    interval, which it sets to 100ms.  The refresh then is still due, so as
    long as the query keeps failing the next iteration does the same: the
    loop retries without ever sleeping. *)
Theorem Run_tick_topology_failure (s : LeaderTPUService.t) (fanout : Z)
    (v : LeaderTPUService.run_vars) (now now' refreshed refreshed' : Z)
    (c : LeaderTPUCache.t) (connection : rpc_Client) (e : error) :
  LeaderTPUService.LTPUCache s = Some c ->
  Connection c = Some connection ->
  GetClusterNodes connection = Err e ->
  0 <= LeaderTPUService.lastClusterRefreshTime v ->
  5000 * 60 < now - LeaderTPUService.lastClusterRefreshTime v ->
  now <= now' < 2 ^ 63 ->
  let v' := {| LeaderTPUService.lastClusterRefreshTime :=
                 LeaderTPUService.lastClusterRefreshTime v;
               LeaderTPUService.sleepMs := 100 |} in
  LeaderTPUService.Run_tick s fanout v now refreshed = Some (s, v', None) /\
  LeaderTPUService.Run_tick s fanout v' now' refreshed' = Some (s, v', None).
Proof.
  intros Hc Hconn Herr H0 Hdue Hnow v'.
  assert (Hfetch : FetchClusterTPUSockets c = Some (Err e)).
  { unfold FetchClusterTPUSockets. rewrite Hconn. cbn. rewrite Herr. reflexivity. }
  unfold LeaderTPUService.Run_tick. cbn [LeaderTPUService.lastClusterRefreshTime v'].
  rewrite !int64_small by lia.
  destruct (Z.ltb_spec (5000 * 60) (now - LeaderTPUService.lastClusterRefreshTime v)); [|lia].
  destruct (Z.ltb_spec (5000 * 60) (now' - LeaderTPUService.lastClusterRefreshTime v)); [|lia].
  rewrite Hc. cbn. rewrite Hfetch. cbn. split; reflexivity.
Qed.

Lemma Run_tick_topology_failure_witness :
  LeaderTPUService.Run_tick
    (LeaderTPUService.set_LTPUCache service_example
       (Some (set_Connection loaded_example (Some rpc_topology_down))))
    12
    {| LeaderTPUService.lastClusterRefreshTime := 1700000000000;
       LeaderTPUService.sleepMs := 1000 |}
    1700000300001 1700000300002
  = Some (LeaderTPUService.set_LTPUCache service_example
            (Some (set_Connection loaded_example (Some rpc_topology_down))),
          {| LeaderTPUService.lastClusterRefreshTime := 1700000000000;
             LeaderTPUService.sleepMs := 100 |},
          None).
Proof.
  apply (Run_tick_topology_failure
           (LeaderTPUService.set_LTPUCache service_example
              (Some (set_Connection loaded_example (Some rpc_topology_down))))
           12
           {| LeaderTPUService.lastClusterRefreshTime := 1700000000000;
              LeaderTPUService.sleepMs := 1000 |}
           1700000300001 1700000300001 1700000300002 1700000300002
           (set_Connection loaded_example (Some rpc_topology_down))
           rpc_topology_down "rpc: connection refused");
    try reflexivity; cbn; lia.
Defined.



(** ** Start-up of the client *)

Lemma Load_error c connection startSlot err c' :
  LeaderTPUCache.Load c connection startSlot = Some (err, c') ->
  err = match GetEpochInfo connection CommitmentProcessed with
        | Err e => Some e
        | Ok epochInfo =>
            match GetSlotLeaders connection startSlot
                    (fanout_window (EpochInfo_SlotsInEpoch epochInfo)) with
            | Err e => Some e
            | Ok _ =>
                match GetClusterNodes connection with
                | Err e => Some e
                | Ok _ => None
                end
            end
        end.
Proof.
  intros HL. destruct (Load_cases c connection startSlot) as (err' & c'' & HL' & _ & _ & Hcase).
  rewrite HL in HL'. injection HL' as <- <-.
  destruct (GetEpochInfo connection CommitmentProcessed); [|tauto].
  destruct Hcase as [_ Hcase].
  destruct (GetSlotLeaders connection startSlot _); [|tauto].
  destruct Hcase as [_ Hcase].
  destruct (GetClusterNodes connection); tauto.
Qed.

Lemma New_cases connection ws websocketURL config :
  exists c,
    TPUClient.New connection ws websocketURL config = Some (c, startup_error connection) /\
    TPUClient.FanoutSlots c = TPUClient.clamp_fanout (Config_FanoutSlots config) /\
    (startup_error connection = None ->
     exists s cache,
       TPUClient.LTPUService c = Some s /\ LeaderTPUService.LTPUCache s = Some cache).
Proof.
  unfold TPUClient.New, TPUClient.Load.
  destruct (LeaderTPUService_Load_cases LeaderTPUService.zero connection ws websocketURL
              (TPUClient.clamp_fanout (Config_FanoutSlots config)))
    as (err & s' & -> & Hcase).
  cbn. unfold startup_error.
  destruct (GetSlot connection CommitmentProcessed) as [slot|e].
  - destruct Hcase as (_ & _ & c' & HL & Hc).
    rewrite <- (Load_error _ _ _ _ _ HL).
    eexists. split; [reflexivity|]. cbn. split; [reflexivity|].
    intros ->. destruct Hc as (Hc & _). exists s', c'. split; [reflexivity|exact Hc].
  - destruct Hcase as (-> & _). eexists. split; [reflexivity|]. cbn.
    split; [reflexivity|discriminate].
Qed.



(** ** The sender, continued *)

Lemma count_events_app p h1 h2 :
  count_events p (h1 ++ h2) = (count_events p h1 + count_events p h2)%nat.
Proof. unfold count_events. rewrite filter_app, length_app. reflexivity. Qed.

Lemma count_events_cons p ev h :
  count_events p (ev :: h) = ((if p ev then 1 else 0) + count_events p h)%nat.
Proof.
  unfold count_events. rewrite filter_cons. destruct (p ev).
  - rewrite decide_True by reflexivity. reflexivity.
  - rewrite decide_False by discriminate. reflexivity.
Qed.

Lemma count_failed_dials leader texts :
  count_events is_dial (failed_dials leader texts) = length texts /\
  count_events is_connected (failed_dials leader texts) = 0%nat /\
  count_events is_write (failed_dials leader texts) = 0%nat /\
  count_events is_close (failed_dials leader texts) = 0%nat.
Proof.
  induction texts as [|t texts (IH1 & IH2 & IH3 & IH4)]; [repeat split|].
  cbn [failed_dials map]. fold (failed_dials leader texts).
  rewrite !count_events_cons, IH1, IH2, IH3, IH4. cbn. auto.
Qed.

Lemma count_writes leader transaction outcomes :
  count_events is_dial (map (EvWrite leader transaction) outcomes) = 0%nat /\
  count_events is_connected (map (EvWrite leader transaction) outcomes) = 0%nat /\
  count_events is_write (map (EvWrite leader transaction) outcomes) = length outcomes /\
  count_events is_close (map (EvWrite leader transaction) outcomes) = 0%nat.
Proof.
  induction outcomes as [|o outcomes (IH1 & IH2 & IH3 & IH4)]; [repeat split|].
  cbn [map]. rewrite !count_events_cons, IH1, IH2, IH3, IH4. cbn. auto.
Qed.

Lemma leader_trace_counts transaction amount leader trace :
  leader_trace transaction amount leader trace ->
  (count_events is_dial trace <= 4)%nat /\
  (count_events is_write trace <= Z.to_nat amount)%nat /\
  count_events is_close trace = count_events is_connected trace /\
  Forall (event_within [leader] transaction) trace.
Proof.
  intros [texts outcomes Hl Ho|texts Hl].
  - rewrite !count_events_app.
    destruct (count_failed_dials leader texts) as (-> & -> & -> & ->).
    destruct (count_writes leader transaction outcomes) as (-> & -> & -> & ->).
    rewrite !count_events_cons. cbn. split; [lia|]. split; [lia|]. split; [reflexivity|].
    apply Forall_app. split.
    + unfold failed_dials. apply Forall_forall. intros ev [t [-> _]]%list_elem_of_fmap.
      cbn. constructor.
    + apply Forall_cons. split; [cbn; constructor|].
      apply Forall_app. split.
      * apply Forall_forall. intros ev [o [-> _]]%list_elem_of_fmap. cbn.
        split; [constructor|reflexivity].
      * apply Forall_cons. split; [cbn; constructor|constructor].
  - destruct (count_failed_dials leader texts) as (-> & -> & -> & ->).
    split; [lia|]. split; [lia|]. split; [reflexivity|].
    unfold failed_dials. apply Forall_forall. intros ev [t [-> _]]%list_elem_of_fmap.
    cbn. constructor.
Qed.

Lemma event_within_mono addresses addresses' payload ev :
  (forall a, a ∈ addresses -> a ∈ addresses') ->
  event_within addresses payload ev -> event_within addresses' payload ev.
Proof. intros H. destruct ev; cbn; [auto|intros [? ?]; auto|auto]. Qed.

Lemma traces_counts transaction amount leaders traces :
  Forall2 (leader_trace transaction amount) leaders traces ->
  (count_events is_dial (concat traces) <= 4 * length leaders)%nat /\
  (count_events is_write (concat traces) <= length leaders * Z.to_nat amount)%nat /\
  count_events is_close (concat traces) = count_events is_connected (concat traces) /\
  Forall (event_within leaders transaction) (concat traces).
Proof.
  induction 1 as [|leader trace leaders traces Ht _ (IH1 & IH2 & IH3 & IH4)].
  - cbn. split; [lia|]. split; [lia|]. split; [reflexivity|constructor].
  - cbn [concat length]. rewrite !count_events_app.
    destruct (leader_trace_counts _ _ _ _ Ht) as (H1 & H2 & H3 & H4).
    split; [lia|]. split; [lia|]. split; [lia|].
    apply Forall_app. split.
    + eapply Forall_impl; [exact H4|]. intros ev. apply event_within_mono.
      intros a ->%list_elem_of_singleton. constructor.
    + eapply Forall_impl; [exact IH4|]. intros ev. apply event_within_mono.
      intros a Ha. constructor. exact Ha.
Qed.

(** X19. Whatever the network does, a send only dials, writes to and closes
    addresses that [GetLeaderSockets] resolved, every datagram it writes is
    the payload it was given, unchanged, and it closes as many connections
    as it opened. *)
Theorem SendRawTransaction_integrity (net : Net) (transaction : list Byte.byte)
    (c : TPUClient.t) (s : LeaderTPUService.t) (cache : LeaderTPUCache.t) (amount : Z) :
  TPUClient.LTPUService c = Some s ->
  LeaderTPUService.LTPUCache s = Some cache ->
  exists err h,
    TPUClient.SendRawTransaction net transaction c amount = Some (err, h) /\
    Forall (event_within (GetLeaderSockets cache (TPUClient.FanoutSlots c)) transaction) h /\
    count_events is_close h = count_events is_connected h.
Proof.
  intros Hs Hc.
  destruct (SendRawTransaction_spec net transaction c s cache amount Hs Hc)
    as (traces & HF & ->).
  destruct (traces_counts _ _ _ _ HF) as (_ & _ & Hclose & Hwithin).
  eexists _, _. split; [reflexivity|]. split; [exact Hwithin|exact Hclose].
Qed.

Lemma SendRawTransaction_integrity_witness :
  exists err h,
    TPUClient.SendRawTransaction net_addr1_down [Byte.x01] client_example 2 = Some (err, h) /\
    count_events is_close h = count_events is_connected h.
Proof.
  destruct (SendRawTransaction_integrity net_addr1_down [Byte.x01] client_example _
              cache_example 2 eq_refl eq_refl) as (err & h & Hsend & _ & Hclose).
  exists err, h. split; [exact Hsend|exact Hclose].
Defined.

Lemma GetLeaderSockets_length c fanoutSlots :
  1 <= fanoutSlots < 2 ^ 64 ->
  (length (GetLeaderSockets c fanoutSlots) <= Z.to_nat fanoutSlots)%nat.
Proof.
  intros H. rewrite GetLeaderSockets_positive by exact H.
  etransitivity; [apply spec_sockets_length|]. rewrite length_take. lia.
Qed.

(** X20. A client that [New] returns without an error has a fan-out between
    1 and 100, so one send with it goes to at most 100 addresses: it dials
    at most 400 times and writes at most 100 times [amount] datagrams. *)
Theorem New_then_SendRawTransaction_bounds (connection : rpc_Client) (ws : ws_Env)
    (websocketURL : string) (config : TPUClientConfig) (c : TPUClient.t)
    (net : Net) (transaction : list Byte.byte) (amount : Z) :
  0 <= Config_FanoutSlots config < 2 ^ 64 ->
  TPUClient.New connection ws websocketURL config = Some (c, None) ->
  exists err h,
    TPUClient.SendRawTransaction net transaction c amount = Some (err, h) /\
    (count_events is_dial h <= 400)%nat /\
    (count_events is_write h <= 100 * Z.to_nat amount)%nat.
Proof.
  intros Hcfg HN.
  destruct (New_cases connection ws websocketURL config) as (c' & HN' & HF & Hloaded).
  rewrite HN in HN'. injection HN' as <- Herr.
  destruct (Hloaded (eq_sym Herr)) as (s & cache & Hs & Hc).
  rewrite clamp_fanout_spec in HF by exact Hcfg. unfold MAX_FANOUT_SLOTS in HF.
  destruct (SendRawTransaction_spec net transaction c s cache amount Hs Hc)
    as (traces & HT & ->).
  destruct (traces_counts _ _ _ _ HT) as (Hd & Hw & _).
  pose proof (GetLeaderSockets_length cache (TPUClient.FanoutSlots c) ltac:(lia)) as Hlen.
  eexists _, _. split; [reflexivity|].
  assert (length (GetLeaderSockets cache (TPUClient.FanoutSlots c)) <= 100)%nat by lia.
  split; [lia|]. nia.
Qed.

Lemma New_then_SendRawTransaction_bounds_witness :
  exists c err h,
    TPUClient.New rpc_example ws_example "" {| Config_FanoutSlots := 500 |} = Some (c, None) /\
    TPUClient.SendRawTransaction net_addr1_down [Byte.x01] c 3 = Some (err, h) /\
    (count_events is_dial h <= 400)%nat.
Proof.
  destruct (New_cases rpc_example ws_example "" {| Config_FanoutSlots := 500 |})
    as (c & HN & _).
  change (startup_error rpc_example) with (@None error) in HN.
  destruct (New_then_SendRawTransaction_bounds rpc_example ws_example ""
              {| Config_FanoutSlots := 500 |} c net_addr1_down [Byte.x01] 3)
    as (err & h & Hsend & Hd & _).
  - cbn. lia.
  - exact HN.
  - exists c, err, h. split; [exact HN|]. split; [exact Hsend|exact Hd].
Defined.

Lemma write_healthy net transaction leader n h s e :
  (forall h a p, conn_Write net h a p = None) ->
  exists s',
    TPUClient.write net transaction leader n h s e
    = (h ++ replicate n (EvWrite leader transaction None), s', e).
Proof.
  intros Hw. revert h s. induction n as [|n IH]; intros h s.
  - exists s. cbn. rewrite app_nil_r. reflexivity.
  - cbn [TPUClient.write]. rewrite Hw.
    destruct (IH (h ++ [EvWrite leader transaction None]) (int (s + 1))) as (s' & ->).
    exists s'. rewrite <- app_assoc. reflexivity.
Qed.

Lemma send_healthy net transaction amount leaders h s e :
  (forall h a, net_Dial net h a = None) ->
  (forall h a p, conn_Write net h a p = None) ->
  exists s',
    TPUClient.send net transaction amount leaders h s e
    = (h ++ healthy_trace transaction amount leaders, s', e).
Proof.
  intros Hd Hw. revert h s. induction leaders as [|leader rest IH]; intros h s.
  - exists s. cbn. rewrite app_nil_r. reflexivity.
  - cbn [TPUClient.send TPUClient.dial]. rewrite Hd.
    destruct (write_healthy net transaction leader (Z.to_nat amount)
                (h ++ [EvDial leader None]) s e Hw) as (s1 & ->).
    destruct (IH (((h ++ [EvDial leader None])
                   ++ replicate (Z.to_nat amount) (EvWrite leader transaction None))
                  ++ [EvClose leader]) s1) as (s' & Hs).
    exists s'. rewrite Hs.
    unfold healthy_trace. cbn [map concat]. rewrite <- !app_assoc. reflexivity.
Qed.

Lemma count_successes_replicate leader transaction n :
  count_successes (replicate n (EvWrite leader transaction None)) = Z.of_nat n.
Proof. induction n as [|n IH]; cbn [replicate count_successes write_succeeded]; lia. Qed.

Lemma count_successes_healthy transaction amount leaders :
  count_successes (healthy_trace transaction amount leaders)
  = Z.of_nat (length leaders) * Z.of_nat (Z.to_nat amount).
Proof.
  unfold healthy_trace. induction leaders as [|leader rest IH]; [reflexivity|].
  cbn [map concat length]. rewrite !count_successes_app, IH, count_successes_replicate.
  cbn [count_successes write_succeeded]. lia.
Qed.

(** X21. On a network where no dial and no write fails, a send dials every
    resolved address once, writes the payload [amount] times and closes,
    address after address and nothing else; it returns nil exactly when
    there is an address and [amount] is positive. *)
Theorem SendRawTransaction_healthy (net : Net) (transaction : list Byte.byte)
    (c : TPUClient.t) (s : LeaderTPUService.t) (cache : LeaderTPUCache.t) (amount : Z) :
  TPUClient.LTPUService c = Some s ->
  LeaderTPUService.LTPUCache s = Some cache ->
  (forall h a, net_Dial net h a = None) ->
  (forall h a p, conn_Write net h a p = None) ->
  Z.of_nat (length (GetLeaderSockets cache (TPUClient.FanoutSlots c))) * amount < 2 ^ 64 ->
  exists err,
    TPUClient.SendRawTransaction net transaction c amount
    = Some (err, healthy_trace transaction amount
                   (GetLeaderSockets cache (TPUClient.FanoutSlots c))) /\
    (err = None <-> GetLeaderSockets cache (TPUClient.FanoutSlots c) <> [] /\ 0 < amount).
Proof.
  intros Hs Hc Hd Hw Hbound.
  destruct (SendRawTransaction_spec net transaction c s cache amount Hs Hc)
    as (traces & HF & Hsend).
  destruct (send_healthy net transaction amount
              (GetLeaderSockets cache (TPUClient.FanoutSlots c)) [] 0 "" Hd Hw) as (s' & Hh).
  assert (Hdirect :
    TPUClient.SendRawTransaction net transaction c amount
    = Some (if s' =? 0 then Some "" else None,
            healthy_trace transaction amount
              (GetLeaderSockets cache (TPUClient.FanoutSlots c)))).
  { unfold TPUClient.SendRawTransaction, LeaderTPUService.LeaderTPUSockets.
    rewrite Hs. cbn. rewrite Hc. cbn. rewrite Hh. cbn [app].
    destruct (s' =? 0); reflexivity. }
  assert (Htr : concat traces
                = healthy_trace transaction amount
                    (GetLeaderSockets cache (TPUClient.FanoutSlots c))).
  { rewrite Hsend in Hdirect. injection Hdirect as _ Ht. exact Ht. }
  rewrite Htr in Hsend. eexists. split; [exact Hsend|].
  rewrite count_successes_healthy.
  set (n := Z.of_nat (length (GetLeaderSockets cache (TPUClient.FanoutSlots c)))) in *.
  assert (Hn : 0 <= n) by (unfold n; lia).
  assert (Hne : GetLeaderSockets cache (TPUClient.FanoutSlots c) <> [] <-> 0 < n).
  { unfold n. destruct (GetLeaderSockets cache (TPUClient.FanoutSlots c)); cbn [length].
    - split; [congruence|lia].
    - split; [lia|discriminate]. }
  assert (Hrange : 0 <= n * Z.of_nat (Z.to_nat amount) < 2 ^ 64).
  { destruct (Z.le_gt_cases amount 0).
    - replace (Z.to_nat amount) with 0%nat by lia. lia.
    - rewrite Z2Nat.id by lia. nia. }
  pose proof (int_zero _ Hrange) as Hz.
  destruct (Z.eqb_spec (int (n * Z.of_nat (Z.to_nat amount))) 0) as [H0|H0].
  - apply Hz in H0. split; [discriminate|]. intros [Hl Ha]. apply Hne in Hl.
    rewrite Z2Nat.id in H0 by lia. nia.
  - split; [|reflexivity]. intros _.
    assert (Hprod : n * Z.of_nat (Z.to_nat amount) <> 0) by (intros H; apply H0, Hz, H).
    split; [apply Hne|]; nia.
Qed.

Lemma SendRawTransaction_healthy_witness :
  exists err,
    TPUClient.SendRawTransaction net_healthy [Byte.x01] client_example 2
    = Some (err, healthy_trace [Byte.x01] 2
                   (GetLeaderSockets cache_example (TPUClient.FanoutSlots client_example))) /\
    (err = None <->
     GetLeaderSockets cache_example (TPUClient.FanoutSlots client_example) <> [] /\ 0 < 2).
Proof.
  apply (SendRawTransaction_healthy net_healthy [Byte.x01] client_example _ cache_example 2
           eq_refl eq_refl).
  - reflexivity.
  - reflexivity.
  - vm_compute. reflexivity.
Defined.

(** ** Sending through the caller's socket *)

Lemma write_to_replicate {UDPAddr} transaction (leader : option UDPAddr) n h :
  TPUClient.write_to transaction leader n h = h ++ replicate n (leader, transaction).
Proof.
  revert h. induction n as [|n IH]; intros h; cbn [TPUClient.write_to replicate].
  - rewrite app_nil_r. reflexivity.
  - rewrite IH, <- app_assoc. reflexivity.
Qed.

Lemma send_through_concat {UDPAddr} transaction amount (leaders : list (option UDPAddr)) h :
  TPUClient.send_through transaction amount leaders h
  = h ++ concat (map (fun leader => replicate (Z.to_nat amount) (leader, transaction)) leaders).
Proof.
  revert h. induction leaders as [|leader rest IH]; intros h;
    cbn [TPUClient.send_through map concat].
  - rewrite app_nil_r. reflexivity.
  - rewrite IH, write_to_replicate, <- app_assoc. reflexivity.
Qed.

Lemma SendRawTransactionThroughSocket_spec {UDPAddr} (resolve : string -> option UDPAddr)
    transaction c s cache amount :
  TPUClient.LTPUService c = Some s ->
  LeaderTPUService.LTPUCache s = Some cache ->
  TPUClient.SendRawTransactionThroughSocket resolve transaction c amount
  = Some (None,
          concat (map (fun address =>
                         replicate (Z.to_nat amount) (resolve address, transaction))
                    (GetLeaderSockets cache (TPUClient.FanoutSlots c)))).
Proof.
  intros Hs Hc. unfold TPUClient.SendRawTransactionThroughSocket. rewrite Hs. cbn.
  rewrite Hc. cbn. rewrite send_through_concat, GetLeaderSocketsConverted_map.
  cbn [app]. rewrite map_map. reflexivity.
Qed.

(** X22. The variant that sends through the caller's socket hands the
    socket [amount] datagrams with the payload for each address that
    [GetLeaderSockets] gives, in that order, also for an address that does
    not resolve (the nil destination); it returns nil whatever happens,
    even when there is no address or [amount] is not positive and nothing
    is sent. *)
Theorem SendRawTransactionThroughSocket_attempts {UDPAddr : Type}
    (resolve : string -> option UDPAddr) (transaction : list Byte.byte)
    (c : TPUClient.t) (s : LeaderTPUService.t) (cache : LeaderTPUCache.t) (amount : Z) :
  TPUClient.LTPUService c = Some s ->
  LeaderTPUService.LTPUCache s = Some cache ->
  exists attempts,
    TPUClient.SendRawTransactionThroughSocket resolve transaction c amount
    = Some (None, attempts) /\
    attempts
    = concat (map (fun address => replicate (Z.to_nat amount) (resolve address, transaction))
                (GetLeaderSockets cache (TPUClient.FanoutSlots c))) /\
    length attempts
    = (length (GetLeaderSockets cache (TPUClient.FanoutSlots c)) * Z.to_nat amount)%nat /\
    (amount <= 0 -> attempts = []).
Proof.
  intros Hs Hc. eexists.
  split; [exact (SendRawTransactionThroughSocket_spec resolve transaction c s cache amount Hs Hc)|].
  split; [reflexivity|]. split.
  - induction (GetLeaderSockets cache (TPUClient.FanoutSlots c)) as [|a l IH]; [reflexivity|].
    cbn [map concat length]. rewrite length_app, length_replicate, IH. lia.
  - intros Ha. replace (Z.to_nat amount) with 0%nat by lia.
    induction (GetLeaderSockets cache (TPUClient.FanoutSlots c)) as [|a l IH]; [reflexivity|].
    cbn [map concat replicate app]. exact IH.
Qed.

Lemma SendRawTransactionThroughSocket_attempts_witness :
  TPUClient.SendRawTransactionThroughSocket
    (fun address => if String.eqb address "addr1" then None else Some address)
    [Byte.x01] client_example 2
  = Some (None, [ (None, [Byte.x01]); (None, [Byte.x01]);
                  (Some "addr2", [Byte.x01]); (Some "addr2", [Byte.x01]) ]).
Proof.
  destruct (SendRawTransactionThroughSocket_attempts
              (fun address => if String.eqb address "addr1" then None else Some address)
              [Byte.x01] client_example _ cache_example 2 eq_refl eq_refl)
    as (attempts & Hsend & -> & _).
  rewrite Hsend. vm_compute. reflexivity.
Defined.

(** ** Sending a transaction *)

(** X23. [SendTransaction] sends nothing when the transaction cannot be
    encoded and returns the encoder's error with the zero signature.
    Otherwise it sends the encoded bytes as they are, to resolved
    addresses only; when the send fails it returns that error with the
    zero signature, and when it succeeds it returns the first signature of
    the transaction (for a transaction without signatures it panics at
    that point, after the datagrams are out). *)
Theorem SendTransaction_outcome {Signature : Type} (zeroSignature : Signature) (net : Net)
    (c : TPUClient.t) (s : LeaderTPUService.t) (cache : LeaderTPUCache.t)
    (transaction : Transaction Signature) (amount : Z) :
  TPUClient.LTPUService c = Some s ->
  LeaderTPUService.LTPUCache s = Some cache ->
  match MarshalBinary transaction with
  | Err e =>
      TPUClient.SendTransaction zeroSignature net c transaction amount
      = Some (zeroSignature, Some e, [])
  | Ok rawTransaction =>
      exists err h,
        TPUClient.SendRawTransaction net rawTransaction c amount = Some (err, h) /\
        Forall (event_within (GetLeaderSockets cache (TPUClient.FanoutSlots c)) rawTransaction)
          h /\
        TPUClient.SendTransaction zeroSignature net c transaction amount
        = match err with
          | Some e => Some (zeroSignature, Some e, h)
          | None =>
              match Signatures transaction with
              | signature :: _ => Some (signature, None, h)
              | [] => None
              end
          end
  end.
Proof.
  intros Hs Hc. unfold TPUClient.SendTransaction.
  destruct (MarshalBinary transaction) as [raw|e]; [|reflexivity].
  destruct (SendRawTransaction_spec net raw c s cache amount Hs Hc) as (traces & HF & Hsend).
  destruct (traces_counts _ _ _ _ HF) as (_ & _ & _ & Hwithin).
  rewrite Hsend. eexists _, _. split; [reflexivity|]. split; [exact Hwithin|].
  cbn. destruct (int (count_successes (concat traces)) =? 0); [reflexivity|].
  destruct (Signatures transaction); reflexivity.
Qed.

Lemma SendTransaction_outcome_witness :
  TPUClient.SendTransaction "" net_healthy client_example
    {| MarshalBinary := Ok [Byte.x01]; Signatures := ["sig1"; "sig2"] |} 1
  = Some ("sig1", None,
          [ EvDial "addr1" None; EvWrite "addr1" [Byte.x01] None; EvClose "addr1";
            EvDial "addr2" None; EvWrite "addr2" [Byte.x01] None; EvClose "addr2" ]).
Proof.
  pose proof (SendTransaction_outcome "" net_healthy client_example _ cache_example
                {| MarshalBinary := Ok [Byte.x01]; Signatures := ["sig1"; "sig2"] |} 1
                eq_refl eq_refl) as H.
  cbn [MarshalBinary] in H. destruct H as (err & h & Hsend & _ & ->).
  revert Hsend. vm_compute. intros [= <- <-]. reflexivity.
Defined.

(** X24. [SendTransactionThroughSocket] returns the encoder's error, and
    hands nothing to the socket, when the transaction cannot be encoded.
    Otherwise it hands the socket the encoded bytes, [amount] times for
    each resolved address, and returns the first signature of the
    transaction with a nil error, whether or not anything could be sent;
    a transaction without signatures makes it panic. *)
Theorem SendTransactionThroughSocket_outcome {Signature UDPAddr : Type}
    (zeroSignature : Signature) (resolve : string -> option UDPAddr)
    (c : TPUClient.t) (s : LeaderTPUService.t) (cache : LeaderTPUCache.t)
    (transaction : Transaction Signature) (amount : Z) :
  TPUClient.LTPUService c = Some s ->
  LeaderTPUService.LTPUCache s = Some cache ->
  TPUClient.SendTransactionThroughSocket zeroSignature resolve c transaction amount
  = match MarshalBinary transaction with
    | Err e => Some (zeroSignature, Some e, [])
    | Ok rawTransaction =>
        match Signatures transaction with
        | signature :: _ =>
            Some (signature, None,
                  concat (map (fun address =>
                                 replicate (Z.to_nat amount) (resolve address, rawTransaction))
                            (GetLeaderSockets cache (TPUClient.FanoutSlots c))))
        | [] => None
        end
    end.
Proof.
  intros Hs Hc. unfold TPUClient.SendTransactionThroughSocket.
  destruct (MarshalBinary transaction) as [raw|e]; [|reflexivity].
  rewrite (SendRawTransactionThroughSocket_spec resolve raw c s cache amount Hs Hc). cbn.
  destruct (Signatures transaction); reflexivity.
Qed.

Lemma SendTransactionThroughSocket_outcome_witness :
  TPUClient.SendTransactionThroughSocket "" (@Some string) client_example
    {| MarshalBinary := Ok [Byte.x01]; Signatures := ["sig1"] |} 0
  = Some ("sig1", None, []).
Proof.
  rewrite (SendTransactionThroughSocket_outcome "" (@Some string) client_example _ cache_example
             {| MarshalBinary := Ok [Byte.x01]; Signatures := ["sig1"] |} 0 eq_refl eq_refl).
  vm_compute. reflexivity.
Defined.
